(** * flowpipe: nodes of a dataflow graph

    A shallow embedding of [flowpipe/node.py] (class [INode]) together with
    the part of the plug interface that the node code calls into, and the
    properties of [__init__], [__unicode__], [__str__], [evaluate],
    [is_dirty], [upstream_nodes], [downstream_nodes],
    [on_input_plug_set_dirty], [serialize] and [deserialize], and of the
    node class [NodeForTesting] of the test suite ([tests/conftest.py]).

    Python objects live in a store: a node is addressed by its identity (a
    number), a plug by the identity of its owning node and its name in that
    node's [inputs] or [outputs] dictionary.  Methods that mutate objects are
    functions in a state-and-exception monad over the store; an exception
    leaves the mutations done so far in place, as in Python.

    The plug module ([flowpipe/plug.py]) is not among the sources.  Its
    setters are modelled from the specification, for simple plugs; the one
    point the specification leaves open, which markings of a plug invoke the
    node's hook, is a parameter ([notifies]) of everything that follows. *)

From stdpp Require Import gmap strings list fin_maps.

Local Set Warnings "-register-all".

(** ** Python values *)

(** Plug payloads, node names, computed results and serialized documents are
    dynamically typed.  Dictionaries have string keys (keyword arguments and
    JSON documents). *)
Inductive py : Type :=
| PyNone
| PyBool (b : bool)
| PyInt (z : Z)
| PyStr (s : string)
| PyList (l : list py)
| PyDict (d : gmap string py).

(** Truth value of an object, as used by [x or y]. *)
Definition truthy (v : py) : bool :=
  match v with
  | PyNone => false
  | PyBool b => b
  | PyInt z => negb (z =? 0)%Z
  | PyStr s => negb (String.eqb s "")
  | PyList l => match l with [] => false | _ :: _ => true end
  | PyDict d => match map_to_list d with [] => false | _ :: _ => true end
  end.

(** ** Exceptions and results *)

Record exn : Type := Exn { exn_cls : string; exn_arg : py }.

Definition KeyError (k : py) : exn := Exn "KeyError" k.
Definition TypeError : exn := Exn "TypeError" PyNone.
Definition AttributeError : exn := Exn "AttributeError" PyNone.
(** Raised by the interpreter when calls nest deeper than its limit. *)
Definition RecursionError : exn := Exn "RecursionError" PyNone.
(** A method invoked through a reference that names no object of the store. *)
Definition ReferenceError : exn := Exn "ReferenceError" PyNone.

Inductive result (A : Type) : Type :=
| Ok (a : A)
| Raise (e : exn).
Arguments Ok {A} a.
Arguments Raise {A} e.

(** ** Objects *)

(** A plug is referred to by its owning node and its name there; [c.node] is
    the first component.  The connections of an input plug refer to output
    plugs and those of an output plug to input plugs. *)
Definition plug_ref : Type := nat * string.

(** Modelled from the spec: the plug object of [flowpipe/plug.py], which
    [node.py] uses and which is not among the sources at hand.  A simple
    (non-compound) plug: a value, a dirty flag and the connections to other
    plugs; its name is its key in the owning node's dictionary. *)
Record Plug : Type := mkPlug {
  p_value : py;
  p_is_dirty : bool;
  p_connections : list plug_ref
}.

(** The concrete node type: what [__module__], [__class__.__name__] and the
    subclass's [compute] are.  [compute] receives the input values as keyword
    arguments and returns an object or raises. *)
Record NodeClass : Type := mkClass {
  cls_module : string;
  cls_name : string;
  cls_compute : gmap string py → result py
}.

Record Node : Type := mkNode {
  n_class : NodeClass;
  n_name : py;
  n_identifier : py;
  n_inputs : gmap string Plug;
  n_outputs : gmap string Plug
}.

(** What the log collaborator receives: [Computed name] stands for the text
    ['Computed: {}'.format(name)]. *)
Inductive message : Type :=
| Computed (name : py).

Record world : Type := mkWorld {
  nodes : gmap nat Node;
  log : list message
}.

(** Field updates. *)
Definition plug_with_value (v : py) (p : Plug) : Plug :=
  mkPlug v (p_is_dirty p) (p_connections p).
Definition plug_with_dirty (b : bool) (p : Plug) : Plug :=
  mkPlug (p_value p) b (p_connections p).
Definition node_with_name (v : py) (n : Node) : Node :=
  mkNode (n_class n) v (n_identifier n) (n_inputs n) (n_outputs n).
Definition node_with_identifier (v : py) (n : Node) : Node :=
  mkNode (n_class n) (n_name n) v (n_inputs n) (n_outputs n).
Definition node_with_inputs (f : gmap string Plug → gmap string Plug) (n : Node) : Node :=
  mkNode (n_class n) (n_name n) (n_identifier n) (f (n_inputs n)) (n_outputs n).
Definition node_with_outputs (f : gmap string Plug → gmap string Plug) (n : Node) : Node :=
  mkNode (n_class n) (n_name n) (n_identifier n) (n_inputs n) (f (n_outputs n)).
Definition world_with_nodes (f : gmap nat Node → gmap nat Node) (w : world) : world :=
  mkWorld (f (nodes w)) (log w).

Definition input_plug (w : world) (r : plug_ref) : option Plug :=
  n ← nodes w !! r.1; n_inputs n !! r.2.
Definition output_plug (w : world) (r : plug_ref) : option Plug :=
  n ← nodes w !! r.1; n_outputs n !! r.2.

Definition update_node (self : nat) (f : Node → Node) (w : world) : world :=
  world_with_nodes (alter f self) w.
Definition update_input (r : plug_ref) (f : Plug → Plug) (w : world) : world :=
  update_node r.1 (node_with_inputs (alter f r.2)) w.
Definition update_output (r : plug_ref) (f : Plug → Plug) (w : world) : world :=
  update_node r.1 (node_with_outputs (alter f r.2)) w.

Global Arguments input_plug : simpl never.
Global Arguments output_plug : simpl never.
Global Arguments update_node : simpl never.
Global Arguments update_input : simpl never.
Global Arguments update_output : simpl never.

(** ** The monad of methods *)

Definition M (A : Type) : Type := world → result A * world.

Definition ret {A} (a : A) : M A := λ w, (Ok a, w).
Definition raise {A} (e : exn) : M A := λ w, (Raise e, w).
Definition bind {A B} (m : M A) (k : A → M B) : M B :=
  λ w, match m w with
       | (Ok a, w') => k a w'
       | (Raise e, w') => (Raise e, w')
       end.
Definition lift {A} (r : result A) : M A := λ w, (r, w).
Definition get_world : M world := λ w, (Ok w, w).
Definition modify (f : world → world) : M unit := λ w, (Ok tt, f w).

Notation "'let!' x ':=' m 'in' k" := (bind m (λ x, k))
  (at level 10, x binder, m at level 100, k at level 200, only parsing).
Notation "m '>>' k" := (bind m (λ _, k))
  (at level 90, right associativity, only parsing).

(** [for x in l: body x] *)
Fixpoint for_each {A} (body : A → M unit) (l : list A) : M unit :=
  match l with
  | [] => ret tt
  | x :: l' => body x >> for_each body l'
  end.

Definition get_node (self : nat) : M Node :=
  λ w, match nodes w !! self with
       | Some n => (Ok n, w)
       | None => (Raise ReferenceError, w)
       end.

(** Run the monad's plumbing in a proof: unfold its operations and reduce
    the matches on results that are known. *)
Ltac mrun :=
  unfold bind, get_world, get_node, modify, ret, raise, lift;
  cbn [fst snd].

(** ** Operations on Python values *)

(** [obj[key]] for a string [key]. *)
Definition getitem (obj : py) (key : string) : result py :=
  match obj with
  | PyDict d =>
      match d !! key with
      | Some v => Ok v
      | None => Raise (KeyError (PyStr key))
      end
  | _ => Raise TypeError
  end.

(** The elements [for x in obj] runs over. *)
Definition py_iter (obj : py) : result (list py) :=
  match obj with
  | PyList l => Ok l
  | PyDict d => Ok ((PyStr ∘ fst) <$> map_to_list d)
  | PyStr s => Ok ((λ c, PyStr (String c EmptyString)) <$> String.list_ascii_of_string s)
  | _ => Raise TypeError
  end.

(** [obj.items()] *)
Definition py_items (obj : py) : result (list (string * py)) :=
  match obj with
  | PyDict d => Ok (map_to_list d)
  | _ => Raise AttributeError
  end.

(** [plugs[key]] for a dictionary of plugs keyed by name and an arbitrary
    object as key: unhashable keys are a [TypeError], others are looked up. *)
Definition plugs_getitem (plugs : gmap string Plug) (key : py) : result string :=
  match key with
  | PyList _ | PyDict _ => Raise TypeError
  | PyStr s =>
      match plugs !! s with
      | Some _ => Ok s
      | None => Raise (KeyError key)
      end
  | _ => Raise (KeyError key)
  end.

(** ** Plugs *)

(** The methods of plugs that [node.py] calls.  A reference that names no
    plug of the store stands for no object, and the setters do nothing on
    it. *)

(** The document of a simple plug, [{name, value}]. *)
Definition plug_doc (name : string) (value : py) : py :=
  PyDict (<["name" := PyStr name]> (<["value" := value]> ∅)).

(** Modelled from the spec: [serialize] of a plug ([flowpipe/plug.py]),
    giving the document [{name, value}] of a simple plug. *)
Definition Plug_serialize (name : string) (p : Plug) : py :=
  plug_doc name (p_value p).

(** How a plug is marked dirty: by an assignment to its [value], or by an
    assignment to its [is_dirty], as the node's hook does. *)
Inductive marking : Type :=
| ByValue
| ByFlag.

(** The hook invoked on every marking, and the hook invoked only when the
    flag changes. *)
Definition always (how : marking) (was_dirty : bool) : bool := true.
Definition on_change (how : marking) (was_dirty : bool) : bool := negb was_dirty.

Section Flowpipe.

(** Modelled from the spec: when marking an input plug dirty invokes the
    owning node's [on_input_plug_set_dirty].  The spec has the hook "invoked
    automatically whenever any of this node's input plugs transitions to
    dirty (whether via direct value assignment or via an upstream push)".
    [notifies how was_dirty] says whether a marking invokes it, from how the
    plug is marked and whether it was dirty already, so that what follows
    holds whether the hook runs on every marking ([λ _ _, true]), on
    assignments of values only, or only when the flag changes. *)
Variable notifies : marking → bool → bool.

(** Modelled from the spec: the setter of a plug's [is_dirty]
    ([flowpipe/plug.py]).  It stores the flag and, when the plug is set
    dirty and [notifies] says so, invokes the owning node's
    [on_input_plug_set_dirty].  The hook is passed in as [hook], because
    [INode] defines it and it calls back into this setter. *)
Definition InputPlug_set_is_dirty_with
    (hook : nat → plug_ref → M unit) (how : marking) (p : plug_ref)
    (status : bool) : M unit :=
  let! w := get_world in
  match input_plug w p with
  | None => ret tt
  | Some plug =>
      modify (update_input p (plug_with_dirty status)) >>
      if status && notifies how (p_is_dirty plug) then hook p.1 p else ret tt
  end.

(** ** INode *)

(** [INode.__init__]; [uuid4] is the text [uuid.uuid4()] produces. *)
Definition INode_init (cls : NodeClass) (name identifier : option string)
    (uuid4 : string) : Node :=
  let name := default (cls_name cls) name in
  let identifier := default (name +:+ "-" +:+ uuid4) identifier in
  mkNode cls (PyStr name) (PyStr identifier) ∅ ∅.

(** [INode.is_dirty]: the loop over [self.inputs.values()]. *)
Fixpoint any_dirty (plugs : list Plug) : bool :=
  match plugs with
  | [] => false
  | input_ :: rest => if p_is_dirty input_ then true else any_dirty rest
  end.

Definition is_dirty (n : Node) : bool :=
  any_dirty (map_to_list (n_inputs n)).*2.

(** [INode.upstream_nodes] and [INode.downstream_nodes]: the owners of the
    connected plugs, collected in a list and passed through [set]. *)
Definition connected_nodes (plugs : gmap string Plug) : list nat :=
  flat_map (λ plug, fst <$> p_connections plug) (map_to_list plugs).*2.

Definition upstream_nodes (n : Node) : list nat :=
  elements (list_to_set (C := gset nat) (connected_nodes (n_inputs n))).

Definition downstream_nodes (n : Node) : list nat :=
  elements (list_to_set (C := gset nat) (connected_nodes (n_outputs n))).

(** [INode.on_input_plug_set_dirty], over the [is_dirty] setter of plugs.
    The two loops run over the output plugs and their connections as they are
    when the method is entered; the setter changes neither (see
    [set_is_dirty_frame]). *)
Definition on_input_plug_set_dirty_with
    (set_is_dirty : plug_ref → bool → M unit)
    (self : nat) (input_plug : plug_ref) : M unit :=
  let! w := get_world in
  match nodes w !! self with
  | None => ret tt
  | Some n =>
      for_each (λ output_plug,
          for_each (λ connected_plug, set_is_dirty connected_plug true)
                   (p_connections output_plug))
        (map_to_list (n_outputs n)).*2
  end.

(** The setter and the hook call each other; [depth] is the number of nested
    setter calls the interpreter still allows before it raises
    [RecursionError]. *)
Fixpoint InputPlug_set_is_dirty (depth : nat) (how : marking) (p : plug_ref)
    (status : bool) : M unit :=
  match depth with
  | 0 => raise RecursionError
  | S depth' =>
      InputPlug_set_is_dirty_with
        (on_input_plug_set_dirty_with (InputPlug_set_is_dirty depth' ByFlag))
        how p status
  end.

Definition on_input_plug_set_dirty (depth : nat) : nat → plug_ref → M unit :=
  on_input_plug_set_dirty_with (InputPlug_set_is_dirty depth ByFlag).

(** Modelled from the spec: the setter of an input plug's [value]
    ([flowpipe/plug.py]).  It stores the value and marks the plug dirty. *)
Definition InputPlug_set_value (depth : nat) (p : plug_ref) (value : py) : M unit :=
  modify (update_input p (plug_with_value value)) >>
  InputPlug_set_is_dirty depth ByValue p true.

(** Modelled from the spec: the setter of an output plug's [value]
    ([flowpipe/plug.py]).  It stores the value and pushes it into every
    connected input plug; the output plug itself is not marked dirty. *)
Definition OutputPlug_set_value (depth : nat) (p : plug_ref) (value : py) : M unit :=
  let! w := get_world in
  match output_plug w p with
  | None => ret tt
  | Some plug =>
      modify (update_output p (plug_with_value value)) >>
      for_each (λ q, InputPlug_set_value depth q value) (p_connections plug)
  end.

(** Modelled from the spec: [LogObserver.push_message]
    ([flowpipe/log_observer.py]), which appends to the process-wide log. *)
Definition push_message (m : message) : M unit :=
  modify (λ w, mkWorld (nodes w) (log w ++ [m])).

(** [INode.evaluate].  The body of its first loop,
    [self.outputs[name].value = value]: *)
Definition write_output (depth : nat) (self : nat) (item : string * py) : M unit :=
  let! n := get_node self in
  match n_outputs n !! item.1 with
  | None => raise (KeyError (PyStr item.1))
  | Some _ => OutputPlug_set_value depth (self, item.1) item.2
  end.

(** and of its second, [input_.is_dirty = False]: *)
Definition clean_input (depth : nat) (self : nat) (name : string) : M unit :=
  InputPlug_set_is_dirty depth ByFlag (self, name) false.

Definition evaluate (depth : nat) (self : nat) : M py :=
  let! n := get_node self in
  let inputs := p_value <$> n_inputs n in
  let! r := lift (cls_compute (n_class n) inputs) in
  let outputs := if truthy r then r else PyDict ∅ in
  let! items := lift (py_items outputs) in
  for_each (write_output depth self) items >>
  (let! n := get_node self in
   for_each (clean_input depth self) (map_to_list (n_inputs n)).*1) >>
  (let! n := get_node self in push_message (Computed (n_name n))) >>
  ret outputs.

(** [INode.serialize] *)
Definition serialize (n : Node) : py :=
  PyDict (<["module" := PyStr (cls_module (n_class n))]>
         (<["cls" := PyStr (cls_name (n_class n))]>
         (<["name" := n_name n]>
         (<["identifier" := n_identifier n]>
         (<["inputs" := PyList (uncurry Plug_serialize <$> map_to_list (n_inputs n))]>
         (<["outputs" := PyList (uncurry Plug_serialize <$> map_to_list (n_outputs n))]>
          ∅)))))).

(** [INode.deserialize].  The body of its loop,
    [self.inputs[input_['name']].value = input_['value']]; the right-hand side
    of the assignment is evaluated first: *)
Definition set_input (depth : nat) (self : nat) (input_ : py) : M unit :=
  let! value := lift (getitem input_ "value") in
  let! key := lift (getitem input_ "name") in
  let! n := get_node self in
  let! name := lift (plugs_getitem (n_inputs n) key) in
  InputPlug_set_value depth (self, name) value.

Definition deserialize (depth : nat) (self : nat) (data : py) : M unit :=
  let! name := lift (getitem data "name") in
  modify (update_node self (node_with_name name)) >>
  let! identifier := lift (getitem data "identifier") in
  modify (update_node self (node_with_identifier identifier)) >>
  let! inputs := lift (getitem data "inputs") in
  let! entries := lift (py_iter inputs) in
  for_each (set_input depth self) entries.

(** ** Relations between stores *)

(** What a node is apart from its input plugs. *)
Definition node_rest (n : Node) : NodeClass * py * py * gmap string Plug :=
  (n_class n, n_name n, n_identifier n, n_outputs n).

(** [inputs_frame V w w']: the store [w'] differs from [w] at most in the
    dirty flags of input plugs and in the values of the input plugs in [V].
    The log, the nodes and their classes, names and identifiers, the output
    plugs, the names of the input plugs and all connections are the same. *)
Record inputs_frame (V : plug_ref → Prop) (w w' : world) : Prop := {
  frame_log : log w' = log w;
  frame_nodes : ∀ m, node_rest <$> nodes w' !! m = node_rest <$> nodes w !! m;
  frame_connections : ∀ r,
    p_connections <$> input_plug w' r = p_connections <$> input_plug w r;
  frame_values : ∀ r, ¬ V r →
    p_value <$> input_plug w' r = p_value <$> input_plug w r
}.

(** Input plugs that are dirty in [w] are dirty in [w']. *)
Definition dirty_mono (w w' : world) : Prop :=
  ∀ r, p_is_dirty <$> input_plug w r = Some true →
       p_is_dirty <$> input_plug w' r = Some true.

(** The connections leaving output plugs go down along [rank]: the wiring
    has no cycle through nodes. *)
Definition ranked (rank : nat → nat) (w : world) : Prop :=
  ∀ r plug q, output_plug w r = Some plug → q ∈ p_connections plug →
              rank q.1 < rank r.1.

(** [plugs_frame w w']: the store [w'] differs from [w] at most in the
    values of plugs and the dirty flags of input plugs.  The log, the nodes
    with their classes, names and identifiers, the names of their plugs,
    all connections and the flags of output plugs are the same. *)
Record plugs_frame (w w' : world) : Prop := {
  pf_log : log w' = log w;
  pf_nodes : ∀ m,
    (λ n, (n_class n, n_name n, n_identifier n)) <$> nodes w' !! m =
    (λ n, (n_class n, n_name n, n_identifier n)) <$> nodes w !! m;
  pf_inputs : ∀ r,
    p_connections <$> input_plug w' r = p_connections <$> input_plug w r;
  pf_outputs : ∀ r,
    (λ p, (p_is_dirty p, p_connections p)) <$> output_plug w' r =
    (λ p, (p_is_dirty p, p_connections p)) <$> output_plug w r
}.

(** The input plugs of [self] that the document [data] names. *)
Definition named_input (self : nat) (data : py) (r : plug_ref) : Prop :=
  r.1 = self ∧
  ∃ inputs entries input_,
    getitem data "inputs" = Ok inputs ∧ py_iter inputs = Ok entries ∧
    input_ ∈ entries ∧ getitem input_ "name" = Ok (PyStr r.2).

(** [node_frame self V w w']: the store [w'] differs from [w] at most in
    the name and the identifier of [self], in the values of the input plugs
    in [V] and in dirty flags of input plugs that were clean and are now
    set; no dirty flag is cleared. *)
Record node_frame (self : nat) (V : plug_ref → Prop) (w w' : world) : Prop := {
  nf_log : log w' = log w;
  nf_class : ∀ m, n_class <$> nodes w' !! m = n_class <$> nodes w !! m;
  nf_names : ∀ m, m ≠ self →
    (λ n, (n_name n, n_identifier n)) <$> nodes w' !! m =
    (λ n, (n_name n, n_identifier n)) <$> nodes w !! m;
  nf_outputs : ∀ r, output_plug w' r = output_plug w r;
  nf_connections : ∀ r,
    p_connections <$> input_plug w' r = p_connections <$> input_plug w r;
  nf_values : ∀ r, ¬ V r →
    p_value <$> input_plug w' r = p_value <$> input_plug w r;
  nf_dirty : dirty_mono w w'
}.



(** Flags only change, and only towards dirty. *)
Definition flag_step (w w' : world) : Prop :=
  inputs_frame (λ _, False) w w' ∧ dirty_mono w w'.

(** The input plugs of the store, and the stores whose clean input plugs
    are among [C]. *)
Definition input_refs (w : world) : gset plug_ref :=
  list_to_set
    (flat_map (λ '(m, n), (λ name, (m, name)) <$> (map_to_list (n_inputs n)).*1)
       (map_to_list (nodes w))).

Definition clean_within (C : gset plug_ref) (w : world) : Prop :=
  ∀ r, p_is_dirty <$> input_plug w r = Some false → r ∈ C.

(** A decision procedure for [ranked]. *)
Definition rankedb (rank : nat → nat) (w : world) : bool :=
  forallb (λ '(m, n),
      forallb (λ plug, forallb (λ q : plug_ref, rank q.1 <? rank m) (p_connections plug))
              (map_to_list (n_outputs n)).*2)
    (map_to_list (nodes w)).

(** ** The test suite's node class and a small graph *)

(** [a * b]: the product of numbers (booleans count as 0 and 1), the
    repetition of a string or a list; [TypeError] otherwise. *)
Definition py_int (a : py) : option Z :=
  match a with
  | PyInt z => Some z
  | PyBool b => Some (if b then 1 else 0)%Z
  | _ => None
  end.

Fixpoint string_repeat (n : nat) (s : string) : string :=
  match n with
  | 0 => ""
  | S n' => s +:+ string_repeat n' s
  end.

Definition py_repeat (a : py) (n : Z) : result py :=
  match a with
  | PyStr s => Ok (PyStr (string_repeat (Z.to_nat n) s))
  | PyList l => Ok (PyList (mjoin (replicate (Z.to_nat n) l)))
  | _ => Raise TypeError
  end.

Definition py_mul (a b : py) : result py :=
  match py_int a, py_int b with
  | Some x, Some y => Ok (PyInt (x * y))
  | None, Some n => py_repeat a n
  | Some n, None => py_repeat b n
  | None, None => Raise TypeError
  end.

(** [NodeForTesting.compute(self, in1, in2)] of [tests/conftest.py]: the
    keyword arguments must be exactly [in1] and [in2]. *)
Definition NodeForTesting_compute (kwargs : gmap string py) : result py :=
  match kwargs !! "in1", kwargs !! "in2", map_to_list (delete "in1" (delete "in2" kwargs)) with
  | Some in1, Some in2, [] =>
      match py_mul in1 in2 with
      | Ok product => Ok (PyDict (<["out" := product]> (<["out2" := PyNone]> ∅)))
      | Raise e => Raise e
      end
  | _, _, _ => Raise TypeError
  end.

Definition NodeForTesting_class : NodeClass :=
  mkClass "conftest" "NodeForTesting" NodeForTesting_compute.

(** A [NodeForTesting] with its four plugs: [in1] and [in2] hold the given
    values and have the given flag, [up] are the connections of [in1],
    [down] those of [out]. *)
Definition NodeForTesting (name : option string) (in1 in2 : py) (dirty : bool)
    (up down : list plug_ref) : Node :=
  node_with_inputs
    (λ _, <["in1" := mkPlug in1 dirty up]> (<["in2" := mkPlug in2 dirty []]> ∅))
    (node_with_outputs
       (λ _, <["out" := mkPlug PyNone false down]>
               (<["out2" := mkPlug PyNone false []]> ∅))
       (INode_init NodeForTesting_class name None "0001")).

Definition Start : Node :=
  NodeForTesting (Some "Start") (PyInt 2) (PyInt 3) true [] [(1, "in1"); (2, "in1")].
Definition Node1 : Node :=
  NodeForTesting (Some "Node1") PyNone (PyInt 4) false [(0, "out")] [].
Definition Node2 : Node :=
  NodeForTesting (Some "Node2") PyNone (PyInt 5) false [(0, "out")] [].

(** [Start.out] feeds [Node1.in1] and [Node2.in1], as in the fixture
    [branching_graph]. *)
Definition branching : world :=
  mkWorld (<[0 := Start]> (<[1 := Node1]> (<[2 := Node2]> ∅))) [].

(** Nodes further from the sinks rank higher. *)
Definition branching_rank (m : nat) : nat :=
  match m with 0 => 1 | _ => 0 end.

(** A [NodeForTesting] as its constructor leaves it: no values, nothing
    connected. *)
Definition Fresh : Node :=
  NodeForTesting None PyNone PyNone true [] [].

Definition fresh : world := mkWorld (<[0 := Fresh]> ∅) [].

(** A node type that forwards [in1] to [out] and leaves [out2] alone. *)
Definition Forward_compute (kwargs : gmap string py) : result py :=
  match kwargs !! "in1" with
  | Some in1 => Ok (PyDict (<["out" := in1]> ∅))
  | None => Raise TypeError
  end.

Definition Forward_class : NodeClass :=
  mkClass "conftest" "Forward" Forward_compute.

(** A [Forward] node whose [out2] is wired back to its own [in1]. *)
Definition feedback : world :=
  mkWorld (<[0 := mkNode Forward_class (PyStr "Loop") (PyStr "Loop-0001")
                    (<["in1" := mkPlug (PyInt 7) true [(0, "out2")]]> ∅)
                    (<["out" := mkPlug PyNone false []]>
                       (<["out2" := mkPlug PyNone false [(0, "in1")]]> ∅))]> ∅) [].

(** A clean [NodeForTesting] whose [out2] is wired back to its own [in1]. *)
Definition Knot : Node :=
  node_with_outputs
    (λ _, <["out" := mkPlug PyNone false []]>
            (<["out2" := mkPlug PyNone false [(0, "in1")]]> ∅))
    (NodeForTesting (Some "Knot") (PyInt 2) (PyInt 3) false [(0, "out2")] []).

Definition knot : world := mkWorld (<[0 := Knot]> ∅) [].

(** The same node with a value assigned to [in2] and not yet computed:
    [in2] is dirty, [in1] is clean. *)
Definition HalfKnot : Node :=
  node_with_inputs (alter (plug_with_dirty true) "in2") Knot.

Definition half_knot : world := mkWorld (<[0 := HalfKnot]> ∅) [].





(** ** The picture of a node *)

(** [__unicode__] adds the lists [self.inputs.keys()] and
    [self.outputs.keys()].  Python 2 returns lists there; Python 3 returns
    views, on which [+] is a [TypeError]. *)
Inductive python : Type :=
| Python2
| Python3.

(** Raised by [max] on an empty sequence, and by the ASCII codec on a byte
    above 127. *)
Definition ValueError : exn := Exn "ValueError" PyNone.
Definition UnicodeDecodeError : exn := Exn "UnicodeDecodeError" PyNone.

(** The line break that separates the rows of the picture. *)
Definition newline : string := String (Ascii.ascii_of_nat 10) "".

(** [max(l, key=len)]: the first of the longest elements. *)
Fixpoint max_by_len (best : string) (l : list string) : string :=
  match l with
  | [] => best
  | s :: l' =>
      max_by_len (if String.length best <? String.length s then s else best) l'
  end.

Definition py_max_len (l : list string) : result string :=
  match l with
  | [] => Raise ValueError
  | s :: l' => Ok (max_by_len s l')
  end.

(** [format(s, spec)] of a string [s] for the format specifications [width]
    (strings are aligned to the left), [>width] and [fill^width]: [s] is
    padded to [width] characters, and left as it is when it is longer. *)
Definition ljust (width : nat) (s : string) : string :=
  s +:+ string_repeat (width - String.length s) " ".

Definition rjust (width : nat) (s : string) : string :=
  string_repeat (width - String.length s) " " +:+ s.

Definition center (fill : string) (width : nat) (s : string) : string :=
  let padding := width - String.length s in
  string_repeat (padding / 2) fill +:+ s +:+
  string_repeat (padding - padding / 2) fill.

(** Truth value of [plug.connections]. *)
Definition connected (plug : Plug) : bool :=
  match p_connections plug with
  | [] => false
  | _ :: _ => true
  end.

(** [for x in l: acc = body(acc, x)], for a body that may raise. *)
Fixpoint fold_result {A B} (body : B → A → result B) (l : list A) (acc : B) : result B :=
  match l with
  | [] => Ok acc
  | x :: l' =>
      match body acc x with
      | Ok acc' => fold_result body l' acc'
      | Raise e => Raise e
      end
  end.

(** The body of the loop over the inputs of [__unicode__]. *)
Definition input_row (n : Node) (offset : string) (width : nat)
    (pretty : string) (input_ : string) : result string :=
  let pretty := pretty +:+ newline in
  match n_inputs n !! input_ with
  | None => Raise (KeyError (PyStr input_))
  | Some plug =>
      let pretty := if connected plug then pretty +:+ "-->" else pretty +:+ offset in
      Ok (pretty +:+ ("o " +:+ ljust (width - 1) input_ +:+ "|"))
  end.

(** The body of the loop over the outputs. *)
Definition output_row (n : Node) (offset : string) (width : nat)
    (pretty : string) (output : string) : result string :=
  let pretty := pretty +:+ (newline +:+ offset +:+ "|" +:+ rjust (width - 1) output +:+ " o") in
  match n_outputs n !! output with
  | None => Raise (KeyError (PyStr output))
  | Some plug => Ok (if connected plug then pretty +:+ "-->" else pretty)
  end.

(** [INode.__unicode__] *)
Definition INode_unicode (version : python) (n : Node) : result string :=
  let offset :=
    match filter (λ i, connected i = true) (map_to_list (n_inputs n)).*2 with
    | [] => ""
    | _ :: _ => string_repeat 3 " "
    end in
  match version, n_name n with
  | Python3, _ => Raise TypeError
  | Python2, PyStr name =>
      match py_max_len ((map_to_list (n_inputs n)).*1 ++
                        (map_to_list (n_outputs n)).*1 ++ [name]) with
      | Raise e => Raise e
      | Ok longest =>
          let width := String.length longest + 2 in
          let pretty := offset +:+ "+" +:+ string_repeat width "-" +:+ "+" in
          let pretty := pretty +:+
            (newline +:+ offset +:+ "|" +:+
             center "/" width (" " +:+ name +:+ " ") +:+ "|") in
          let pretty := pretty +:+
            (newline +:+ offset +:+ "|" +:+ string_repeat width "-" +:+ "|") in
          match fold_result (input_row n offset width)
                  (map_to_list (n_inputs n)).*1 pretty with
          | Raise e => Raise e
          | Ok pretty =>
              match fold_result (output_row n offset width)
                      (map_to_list (n_outputs n)).*1 pretty with
              | Raise e => Raise e
              | Ok pretty =>
                  Ok (pretty +:+
                      (newline +:+ offset +:+ "+" +:+ string_repeat width "-" +:+ "+"))
              end
          end
      end
  | Python2, _ => Raise TypeError
  end.

(** [s.encode('utf-8').decode()], as [__str__] applies it to the picture.
    Python 2 holds the picture in a byte string: [encode] first decodes it
    with the ASCII codec, and [decode()] decodes the result with the ASCII
    codec again; a byte above 127 is a [UnicodeDecodeError].  Python 3 gives
    the text back. *)
Definition is_ascii (c : Ascii.ascii) : bool := Ascii.nat_of_ascii c <? 128.

Definition ascii_only (s : string) : bool :=
  forallb is_ascii (String.list_ascii_of_string s).

Definition encode_decode (version : python) (s : string) : result string :=
  match version with
  | Python2 => if ascii_only s then Ok s else Raise UnicodeDecodeError
  | Python3 => Ok s
  end.

(** [INode.__str__] *)
Definition INode_str (version : python) (n : Node) : result string :=
  match INode_unicode version n with
  | Ok pretty => encode_decode version pretty
  | Raise e => Raise e
  end.

(** [INode.compute], the abstract method: its body is [pass], and a subclass
    that defers to it gets [None]. *)
Definition INode_compute (kwargs : gmap string py) : result py :=
  Ok PyNone.

(** A node type whose [compute] returns one and the same object, whatever
    its inputs hold. *)
Definition Constant_compute (r : py) (kwargs : gmap string py) : result py :=
  Ok r.

Definition Constant_class (r : py) : NodeClass :=
  mkClass "conftest" "Constant" (Constant_compute r).

Definition Constant (r : py) : Node :=
  mkNode (Constant_class r) (PyStr "Constant") (PyStr "Constant-0001")
    (<["in1" := mkPlug PyNone true []]> ∅)
    (<["out" := mkPlug PyNone false []]> ∅).

Definition constant (r : py) : world := mkWorld (<[0 := Constant r]> ∅) [].

(** * Properties *)

(** ** Derived properties of a node: [is_dirty], [upstream_nodes],
    [downstream_nodes] *)

Lemma any_dirty_true (plugs : list Plug) :
  any_dirty plugs = true ↔ ∃ p, p ∈ plugs ∧ p_is_dirty p = true.
Proof.
  induction plugs as [|p plugs IH]; simpl.
  - split; [done | intros (p & Hp & _); by apply elem_of_nil in Hp].
  - destruct (p_is_dirty p) eqn:Hd.
    + split; [intros _; exists p; split; [left | done] | done].
    + rewrite IH. split.
      * intros (q & Hq & Hqd). exists q. split; [by right | done].
      * intros (q & Hq & Hqd). apply elem_of_cons in Hq as [-> | Hq]; [congruence |].
        by exists q.
Qed.

Lemma elem_of_plug_values (plugs : gmap string Plug) (p : Plug) :
  p ∈ (map_to_list plugs).*2 ↔ ∃ name, plugs !! name = Some p.
Proof.
  rewrite list_elem_of_fmap. split.
  - intros ([name q] & -> & Hin). exists name. by apply elem_of_map_to_list.
  - intros (name & Hname). exists (name, p). split; [done |].
    by apply elem_of_map_to_list.
Qed.

Lemma input_names_elem (plugs : gmap string Plug) name :
  name ∈ (map_to_list plugs).*1 ↔ is_Some (plugs !! name).
Proof.
  rewrite list_elem_of_fmap. split.
  - intros ([k p] & -> & Hin). apply elem_of_map_to_list in Hin. eauto.
  - intros [p Hp]. exists (name, p). split; [done |]. by apply elem_of_map_to_list.
Qed.

Lemma is_dirty_true_iff (n : Node) :
  is_dirty n = true ↔
  ∃ name p, n_inputs n !! name = Some p ∧ p_is_dirty p = true.
Proof.
  unfold is_dirty. rewrite any_dirty_true. split.
  - intros (p & Hp & Hd). apply elem_of_plug_values in Hp as [name Hname]. eauto.
  - intros (name & p & Hname & Hd). exists p. split; [| done].
    apply elem_of_plug_values. eauto.
Qed.

(** C2: a node is dirty exactly when one of its input plugs is; the
    value is a function of the input plugs as they are now, and nothing else
    of the node, in particular no output plug, takes part in it. *)
Theorem is_dirty_any_input (n : Node) :
  (is_dirty n = true ↔
     ∃ name p, n_inputs n !! name = Some p ∧ p_is_dirty p = true) ∧
  (∀ cls name identifier outputs,
     is_dirty (mkNode cls name identifier (n_inputs n) outputs) = is_dirty n).
Proof. split; [apply is_dirty_true_iff | done]. Qed.

Lemma elem_of_connected_nodes (plugs : gmap string Plug) (m : nat) :
  m ∈ connected_nodes plugs ↔
  ∃ name plug c, plugs !! name = Some plug ∧ c ∈ p_connections plug ∧ c.1 = m.
Proof.
  unfold connected_nodes. rewrite list_elem_of_In, in_flat_map. split.
  - intros (plug & Hplug & Hm).
    apply list_elem_of_In, elem_of_plug_values in Hplug as [name Hname].
    apply list_elem_of_In, list_elem_of_fmap in Hm as (c & -> & Hc).
    by exists name, plug, c.
  - intros (name & plug & c & Hname & Hc & <-). exists plug. split.
    + apply list_elem_of_In, elem_of_plug_values. eauto.
    + apply list_elem_of_In, list_elem_of_fmap. eauto.
Qed.

(** C8: [upstream_nodes] lists, without repetition, exactly the owners
    of the plugs connected to the node's input plugs, and [downstream_nodes]
    does the same for the output plugs, however many connections lead to
    the same node; both are functions of the connections as they are now. *)
Theorem upstream_downstream_nodes_exactly_once (n : Node) :
  (NoDup (upstream_nodes n) ∧
   ∀ m, m ∈ upstream_nodes n ↔
        ∃ name plug c, n_inputs n !! name = Some plug ∧
                       c ∈ p_connections plug ∧ c.1 = m) ∧
  (NoDup (downstream_nodes n) ∧
   ∀ m, m ∈ downstream_nodes n ↔
        ∃ name plug c, n_outputs n !! name = Some plug ∧
                       c ∈ p_connections plug ∧ c.1 = m).
Proof.
  unfold upstream_nodes, downstream_nodes.
  split; (split; [apply NoDup_elements |]); intros m;
    by rewrite elem_of_elements, elem_of_list_to_set, elem_of_connected_nodes.
Qed.

(** ** Loops *)

Section Loops.
Context {A : Type}.

Lemma for_each_cons (body : A → M unit) x l w :
  for_each body (x :: l) w =
  match body x w with
  | (Ok _, w') => for_each body l w'
  | (Raise e, w') => (Raise e, w')
  end.
Proof. done. Qed.

(** A relation that every run of the body establishes is established by the
    loop, whether it completes or raises. *)
Lemma for_each_inv (R : relation world) `{!Reflexive R, !Transitive R}
    (body : A → M unit) (l : list A) :
  (∀ x w, x ∈ l → R w (body x w).2) →
  ∀ w, R w (for_each body l w).2.
Proof.
  induction l as [|x l IH]; intros Hbody w.
  - done.
  - rewrite for_each_cons.
    pose proof (Hbody x w (list_elem_of_here _ _)) as Hx.
    destruct (body x w) as [[[]|e] w1]; simpl in *; [| done].
    etrans; [exact Hx |]. apply IH. intros y w' Hy. apply Hbody. by right.
Qed.

Lemma for_each_ok_elem (R : relation world) `{!Reflexive R, !Transitive R}
    (body : A → M unit) (l : list A) :
  (∀ x w, x ∈ l → R w (body x w).2) →
  ∀ w w', for_each body l w = (Ok tt, w') →
  ∀ x, x ∈ l → ∃ w1 w2, R w w1 ∧ body x w1 = (Ok tt, w2) ∧ R w2 w'.
Proof.
  induction l as [|y l IH]; intros Hbody w w' Hrun x Hx.
  - by apply elem_of_nil in Hx.
  - rewrite for_each_cons in Hrun.
    pose proof (Hbody y w (list_elem_of_here _ _)) as Hy.
    destruct (body y w) as [[[]|e] w1] eqn:Hyw; [| done]. simpl in Hy.
    assert (∀ z v, z ∈ l → R v (body z v).2) as Hbody'
      by (intros z v Hz; apply Hbody; by right).
    apply elem_of_cons in Hx as [-> | Hx].
    + exists w, w1. split_and!; [done | done |].
      replace w' with (for_each body l w1).2 by (by rewrite Hrun).
      by apply (for_each_inv R).
    + destruct (IH Hbody' w1 w' Hrun x Hx) as (v1 & v2 & Hv1 & Hv & Hv2).
      exists v1, v2. split_and!; [by etrans | done | done].
Qed.


Lemma for_each_raise (body : A → M unit) (l : list A) w e w' :
  for_each body l w = (Raise e, w') →
  ∃ x w1, x ∈ l ∧ body x w1 = (Raise e, w').
Proof.
  revert w. induction l as [|y l IH]; intros w Hrun; [done |].
  rewrite for_each_cons in Hrun.
  destruct (body y w) as [[[]|e1] w1] eqn:Hyw.
  - destruct (IH w1 Hrun) as (x & v & Hx & Hxv). exists x, v. split; [by right | done].
  - simplify_eq. exists y, w. split; [left | done].
Qed.

(** A loop whose body completes from every store satisfying [I], and keeps
    [I], completes. *)
Lemma for_each_total (I : world → Prop) (body : A → M unit) (l : list A) :
  (∀ x w, x ∈ l → I w → ∃ w', body x w = (Ok tt, w') ∧ I w') →
  ∀ w, I w → ∃ w', for_each body l w = (Ok tt, w') ∧ I w'.
Proof.
  induction l as [|x l IH]; intros Hbody w Hw.
  - by exists w.
  - rewrite for_each_cons.
    destruct (Hbody x w (list_elem_of_here _ _) Hw) as (w1 & -> & Hw1).
    apply IH; [| done]. intros y v Hy. apply Hbody. by right.
Qed.

Lemma for_each_returns (body : A → M unit) (l : list A) :
  (∀ x w, x ∈ l → ∃ w', body x w = (Ok tt, w')) →
  ∀ w, ∃ w', for_each body l w = (Ok tt, w').
Proof.
  intros Hbody w.
  destruct (for_each_total (λ _, True) body l) with (w := w) as (w' & Hrun & _);
    [| done | by eauto].
  intros x v Hx _. destruct (Hbody x v Hx) as [v' Hv']. eauto.
Qed.

End Loops.

(** ** Reading the store after an update *)

Lemma nodes_update_node self f w m :
  nodes (update_node self f w) !! m =
  if decide (self = m) then f <$> nodes w !! m else nodes w !! m.
Proof.
  unfold update_node; simpl. rewrite lookup_alter.
  by destruct (decide (self = m)) as [-> |].
Qed.

Lemma lookup_alter_same {A} (f : A → A) (m : gmap string A) i j :
  alter f i m !! j = if decide (i = j) then f <$> m !! j else m !! j.
Proof. rewrite lookup_alter. by destruct (decide (i = j)) as [-> |]. Qed.

Lemma input_plug_update_input p f w r :
  input_plug (update_input p f w) r =
  if decide (p = r) then f <$> input_plug w r else input_plug w r.
Proof.
  unfold input_plug, update_input. rewrite nodes_update_node.
  destruct p as [m k], r as [m' k']; simpl.
  destruct (decide (m = m')) as [-> |Hm].
  - destruct (nodes w !! m') as [n|]; simpl.
    + rewrite lookup_alter_same. destruct (decide (k = k')) as [-> |Hk].
      * by rewrite decide_True.
      * rewrite decide_False; [done | congruence].
    + by destruct (decide _).
  - rewrite decide_False; [done | congruence].
Qed.

Lemma output_plug_update_input p f w r :
  output_plug (update_input p f w) r = output_plug w r.
Proof.
  unfold output_plug, update_input. rewrite nodes_update_node.
  destruct (decide _); [| done]. by destruct (nodes w !! r.1).
Qed.

Lemma output_plug_update_output p f w r :
  output_plug (update_output p f w) r =
  if decide (p = r) then f <$> output_plug w r else output_plug w r.
Proof.
  unfold output_plug, update_output. rewrite nodes_update_node.
  destruct p as [m k], r as [m' k']; simpl.
  destruct (decide (m = m')) as [-> |Hm].
  - destruct (nodes w !! m') as [n|]; simpl.
    + rewrite lookup_alter_same. destruct (decide (k = k')) as [-> |Hk].
      * by rewrite decide_True.
      * rewrite decide_False; [done | congruence].
    + by destruct (decide _).
  - rewrite decide_False; [done | congruence].
Qed.

Lemma input_plug_update_output p f w r :
  input_plug (update_output p f w) r = input_plug w r.
Proof.
  unfold input_plug, update_output. rewrite nodes_update_node.
  destruct (decide _); [| done]. by destruct (nodes w !! r.1).
Qed.

Lemma input_plug_update_node self f w r :
  (∀ n, n_inputs (f n) = n_inputs n) →
  input_plug (update_node self f w) r = input_plug w r.
Proof.
  intros Hf. unfold input_plug. rewrite nodes_update_node.
  destruct (decide _); [| done]. destruct (nodes w !! r.1); simpl; [| done].
  by rewrite Hf.
Qed.

Lemma output_plug_update_node self f w r :
  (∀ n, n_outputs (f n) = n_outputs n) →
  output_plug (update_node self f w) r = output_plug w r.
Proof.
  intros Hf. unfold output_plug. rewrite nodes_update_node.
  destruct (decide _); [| done]. destruct (nodes w !! r.1); simpl; [| done].
  by rewrite Hf.
Qed.

Lemma plug_with_value_id plug : plug_with_value (p_value plug) plug = plug.
Proof. by destruct plug. Qed.

Lemma output_plug_of_value w self n plug :
  nodes w !! self = Some n → plug ∈ (map_to_list (n_outputs n)).*2 →
  ∃ name, output_plug w (self, name) = Some plug.
Proof.
  intros Hn Hplug. apply elem_of_plug_values in Hplug as [name Hname].
  exists name. unfold output_plug; simpl. by rewrite Hn.
Qed.

(** ** Frames *)

Global Instance inputs_frame_refl V : Reflexive (inputs_frame V).
Proof. by intros w; split. Qed.

Global Instance inputs_frame_trans V : Transitive (inputs_frame V).
Proof.
  intros w1 w2 w3 [Hl1 Hn1 Hc1 Hv1] [Hl2 Hn2 Hc2 Hv2]. split.
  - congruence.
  - intros m. by rewrite Hn2.
  - intros r. by rewrite Hc2.
  - intros r Hr. by rewrite Hv2, Hv1.
Qed.

Lemma inputs_frame_weaken (V V' : plug_ref → Prop) w w' :
  (∀ r, V r → V' r) → inputs_frame V w w' → inputs_frame V' w w'.
Proof. intros HV [Hl Hn Hc Hv]. split; auto. Qed.

Lemma inputs_frame_output_plug V w w' r :
  inputs_frame V w w' → output_plug w' r = output_plug w r.
Proof.
  intros [_ Hn _ _]. unfold output_plug. specialize (Hn r.1).
  destruct (nodes w' !! r.1) as [n'|], (nodes w !! r.1) as [n|];
    simpl in *; try done.
  unfold node_rest in Hn. by injection Hn as _ _ _ ->.
Qed.

Lemma inputs_frame_input_is_Some V w w' r :
  inputs_frame V w w' → is_Some (input_plug w' r) ↔ is_Some (input_plug w r).
Proof.
  intros [_ _ Hc _]. specialize (Hc r).
  rewrite <-(fmap_is_Some p_connections (input_plug w' r)), Hc.
  apply fmap_is_Some.
Qed.

Lemma update_input_frame (V : plug_ref → Prop) p f w :
  (∀ x, p_connections (f x) = p_connections x) →
  (¬ V p → ∀ x, p_value (f x) = p_value x) →
  inputs_frame V w (update_input p f w).
Proof.
  intros Hc Hv. split.
  - done.
  - intros m. unfold update_input. rewrite nodes_update_node.
    destruct (decide _); [| done]. by destruct (nodes w !! m).
  - intros r. rewrite input_plug_update_input.
    destruct (decide _); [| done].
    destruct (input_plug w r); simpl; [| done]. by rewrite Hc.
  - intros r Hr. rewrite input_plug_update_input.
    destruct (decide (p = r)) as [-> |]; [| done].
    destruct (input_plug w r); simpl; [| done]. by rewrite Hv.
Qed.

Global Instance plugs_frame_refl : Reflexive plugs_frame.
Proof. by intros w; split. Qed.

Global Instance plugs_frame_trans : Transitive plugs_frame.
Proof.
  intros w1 w2 w3 [Hl1 Hn1 Hi1 Ho1] [Hl2 Hn2 Hi2 Ho2]. split.
  - congruence.
  - intros m. by rewrite Hn2.
  - intros r. by rewrite Hi2.
  - intros r. by rewrite Ho2.
Qed.

Lemma inputs_frame_plugs_frame V w w' : inputs_frame V w w' → plugs_frame w w'.
Proof.
  intros Hf. pose proof Hf as [Hl Hn Hc _]. split; [done | | done |].
  - intros m. specialize (Hn m).
    destruct (nodes w' !! m), (nodes w !! m); simpl in *; try done.
    unfold node_rest in Hn. by injection Hn as -> -> -> _.
  - intros r. by rewrite (inputs_frame_output_plug _ _ _ _ Hf).
Qed.

Lemma update_output_value_frame p v w :
  plugs_frame w (update_output p (plug_with_value v) w).
Proof.
  split.
  - done.
  - intros m. unfold update_output. rewrite nodes_update_node.
    destruct (decide _); [| done]. by destruct (nodes w !! m).
  - intros r. by rewrite input_plug_update_output.
  - intros r. rewrite output_plug_update_output.
    destruct (decide _); [| done]. by destruct (output_plug w r).
Qed.

Lemma plugs_frame_node w w' m n :
  plugs_frame w w' → nodes w !! m = Some n →
  ∃ n', nodes w' !! m = Some n' ∧ n_class n' = n_class n ∧
        n_name n' = n_name n ∧ n_identifier n' = n_identifier n.
Proof.
  intros [_ Hn _ _] Hm. specialize (Hn m). rewrite Hm in Hn.
  destruct (nodes w' !! m) as [n'|]; [| done].
  exists n'. simpl in Hn. by injection Hn as -> -> ->.
Qed.

Lemma plugs_frame_input_is_Some w w' r :
  plugs_frame w w' → is_Some (input_plug w' r) ↔ is_Some (input_plug w r).
Proof.
  intros [_ _ Hi _]. specialize (Hi r).
  rewrite <-(fmap_is_Some p_connections (input_plug w' r)), Hi.
  apply fmap_is_Some.
Qed.

Lemma plugs_frame_output_is_Some w w' r :
  plugs_frame w w' → is_Some (output_plug w' r) ↔ is_Some (output_plug w r).
Proof.
  intros [_ _ _ Ho]. specialize (Ho r).
  rewrite <-(fmap_is_Some (λ p, (p_is_dirty p, p_connections p)) (output_plug w' r)), Ho.
  apply fmap_is_Some.
Qed.

Global Instance node_frame_refl self V : Reflexive (node_frame self V).
Proof. intros w. split; try done. by intros r. Qed.

Global Instance node_frame_trans self V : Transitive (node_frame self V).
Proof.
  intros w1 w2 w3 [Hl1 Hc1 Hn1 Ho1 Hi1 Hv1 Hd1] [Hl2 Hc2 Hn2 Ho2 Hi2 Hv2 Hd2]. split.
  - congruence.
  - intros m. by rewrite Hc2.
  - intros m Hm. by rewrite Hn2, Hn1.
  - intros r. by rewrite Ho2.
  - intros r. by rewrite Hi2.
  - intros r Hr. by rewrite Hv2, Hv1.
  - intros r Hr. auto.
Qed.

Lemma inputs_frame_node_frame self (V V' : plug_ref → Prop) w w' :
  (∀ r, V r → V' r) → inputs_frame V w w' → dirty_mono w w' →
  node_frame self V' w w'.
Proof.
  intros HV Hf Hmono. pose proof Hf as [Hl Hn Hc Hv]. split; auto.
  - intros m. specialize (Hn m).
    destruct (nodes w' !! m), (nodes w !! m); simpl in *; try done.
    unfold node_rest in Hn. by injection Hn as -> _ _ _.
  - intros m _. specialize (Hn m).
    destruct (nodes w' !! m), (nodes w !! m); simpl in *; try done.
    unfold node_rest in Hn. by injection Hn as _ -> -> _.
  - intros r. by apply (inputs_frame_output_plug V).
Qed.

Lemma update_node_head_frame self V f w :
  (∀ n, n_class (f n) = n_class n) →
  (∀ n, n_inputs (f n) = n_inputs n) →
  (∀ n, n_outputs (f n) = n_outputs n) →
  node_frame self V w (update_node self f w).
Proof.
  intros Hc Hi Ho. split.
  - done.
  - intros m. rewrite nodes_update_node. destruct (decide _); [| done].
    destruct (nodes w !! m); simpl; [| done]. by rewrite Hc.
  - intros m Hm. rewrite nodes_update_node. by rewrite decide_False by done.
  - intros r. by apply output_plug_update_node.
  - intros r. by rewrite input_plug_update_node.
  - intros r _. by rewrite input_plug_update_node.
  - intros r. by rewrite input_plug_update_node.
Qed.

Lemma node_frame_doms self V w w' :
  node_frame self V w w' →
  dom (nodes w') = dom (nodes w) ∧
  ∀ m n n', nodes w !! m = Some n → nodes w' !! m = Some n' →
            dom (n_inputs n') = dom (n_inputs n) ∧
            dom (n_outputs n') = dom (n_outputs n).
Proof.
  intros [_ Hc _ Ho Hi _ _]. split.
  - apply set_eq. intros m. rewrite !elem_of_dom.
    rewrite <-(fmap_is_Some n_class (nodes w' !! m)), Hc. apply fmap_is_Some.
  - intros m n n' Hn Hn'. split; apply set_eq; intros k; rewrite !elem_of_dom.
    + specialize (Hi (m, k)). unfold input_plug in Hi; simpl in Hi.
      rewrite Hn, Hn' in Hi; simpl in Hi.
      rewrite <-(fmap_is_Some p_connections (n_inputs n' !! k)), Hi.
      apply fmap_is_Some.
    + specialize (Ho (m, k)). unfold output_plug in Ho; simpl in Ho.
      rewrite Hn, Hn' in Ho; simpl in Ho. by rewrite Ho.
Qed.

Global Instance dirty_mono_refl : Reflexive dirty_mono.
Proof. by intros w r. Qed.

Global Instance dirty_mono_trans : Transitive dirty_mono.
Proof. intros w1 w2 w3 H1 H2 r Hr. auto. Qed.

Lemma update_input_dirty_mono p w :
  dirty_mono w (update_input p (plug_with_dirty true) w).
Proof.
  intros r Hr. rewrite input_plug_update_input.
  destruct (decide _); [| done]. by destruct (input_plug w r).
Qed.

Global Instance flag_step_refl : Reflexive flag_step.
Proof. intros w. split; reflexivity. Qed.

Global Instance flag_step_trans : Transitive flag_step.
Proof. intros w1 w2 w3 [Hf1 Hm1] [Hf2 Hm2]. split; by etrans. Qed.

(** ** The setters of plugs *)

(** The setter of [is_dirty] and the hook change dirty flags of input plugs
    and nothing else, whether they complete or raise. *)
Lemma set_is_dirty_frame depth how p status w :
  inputs_frame (λ _, False) w (InputPlug_set_is_dirty depth how p status w).2.
Proof.
  revert how p status w.
  induction depth as [|depth IH]; intros how p status w; simpl.
  - done.
  - unfold InputPlug_set_is_dirty_with, bind, get_world, modify; simpl.
    destruct (input_plug w p) as [iplug|]; [| done].
    assert (inputs_frame (λ _, False) w (update_input p (plug_with_dirty status) w))
      as Hw by (by apply update_input_frame).
    destruct (status && notifies how (p_is_dirty iplug)); [| done].
    etrans; [exact Hw |].
    unfold on_input_plug_set_dirty_with, bind, get_world; simpl.
    case_match; [| done].
    apply (for_each_inv _). intros plug w1 _.
    apply (for_each_inv _). intros q w2 _. apply IH.
Qed.

Lemma on_input_plug_set_dirty_frame depth self p w :
  inputs_frame (λ _, False) w (on_input_plug_set_dirty depth self p w).2.
Proof.
  unfold on_input_plug_set_dirty, on_input_plug_set_dirty_with, bind, get_world; simpl.
  case_match; [| done].
  apply (for_each_inv _). intros plug w1 _.
  apply (for_each_inv _). intros q w2 _. apply set_is_dirty_frame.
Qed.

(** Marking dirty clears no flag. *)
Lemma set_is_dirty_true_mono depth how p w :
  dirty_mono w (InputPlug_set_is_dirty depth how p true w).2.
Proof.
  revert how p w. induction depth as [|depth IH]; intros how p w; simpl.
  - reflexivity.
  - unfold InputPlug_set_is_dirty_with; mrun.
    destruct (input_plug w p) as [iplug|]; [| reflexivity].
    cbn [andb].
    destruct (notifies how (p_is_dirty iplug)); [| apply (update_input_dirty_mono p)].
    etrans; [apply (update_input_dirty_mono p) |].
    unfold on_input_plug_set_dirty_with; mrun.
    case_match; [| reflexivity].
    apply (for_each_inv _). intros plug w1 _.
    apply (for_each_inv _). intros q w2 _. apply IH.
Qed.

Lemma set_is_dirty_true_step depth how p w :
  flag_step w (InputPlug_set_is_dirty depth how p true w).2.
Proof. split; [apply set_is_dirty_frame | apply set_is_dirty_true_mono]. Qed.

(** A completed marking leaves the plug dirty. *)
Lemma set_is_dirty_true_ok depth how p w w' :
  InputPlug_set_is_dirty depth how p true w = (Ok tt, w') →
  is_Some (input_plug w p) →
  p_is_dirty <$> input_plug w' p = Some true.
Proof.
  destruct depth as [|depth]; simpl; [done |].
  unfold InputPlug_set_is_dirty_with; mrun.
  intros Hrun [plug Hplug]. rewrite Hplug in Hrun. cbn [andb] in Hrun.
  assert (dirty_mono (update_input p (plug_with_dirty true) w) w') as Hmono.
  { destruct (notifies how (p_is_dirty plug)); [| injection Hrun as <-; reflexivity].
    fold (on_input_plug_set_dirty depth) in Hrun.
    replace w' with (on_input_plug_set_dirty depth p.1 p
                       (update_input p (plug_with_dirty true) w)).2
      by (by rewrite Hrun).
    unfold on_input_plug_set_dirty, on_input_plug_set_dirty_with; mrun.
    case_match; [| reflexivity].
    apply (for_each_inv _). intros o w1 _.
    apply (for_each_inv _). intros q w2 _. apply set_is_dirty_true_mono. }
  apply Hmono. rewrite input_plug_update_input, decide_True by done.
  by rewrite Hplug.
Qed.

(** Clearing a flag stores it and invokes nothing. *)
Lemma set_is_dirty_false depth how p w :
  InputPlug_set_is_dirty (S depth) how p false w =
  (Ok tt, match input_plug w p with
          | Some _ => update_input p (plug_with_dirty false) w
          | None => w
          end).
Proof.
  simpl. unfold InputPlug_set_is_dirty_with; mrun. by destruct (input_plug w p).
Qed.

(** The setters raise nothing but the interpreter's nesting limit. *)
Lemma set_is_dirty_raises depth how p status w e w' :
  InputPlug_set_is_dirty depth how p status w = (Raise e, w') → e = RecursionError.
Proof.
  revert how p status w e w'.
  induction depth as [|depth IH]; intros how p status w e w'; simpl.
  - unfold raise. congruence.
  - unfold InputPlug_set_is_dirty_with; mrun.
    destruct (input_plug w p) as [iplug|]; [| done].
    destruct (status && notifies how (p_is_dirty iplug)); [| done].
    unfold on_input_plug_set_dirty_with; mrun.
    case_match; [| done]. intros Hrun.
    apply for_each_raise in Hrun as (o & w1 & _ & Hrun).
    apply for_each_raise in Hrun as (q & w2 & _ & Hrun).
    by apply IH in Hrun.
Qed.

(** Assigning the value of an input plug changes that value and dirty flags. *)
Lemma InputPlug_set_value_frame depth p v w :
  inputs_frame (λ r, r = p) w (InputPlug_set_value depth p v w).2.
Proof.
  unfold InputPlug_set_value; mrun.
  etrans; [by apply (update_input_frame _ p (plug_with_value v)) |].
  eapply inputs_frame_weaken; [| apply set_is_dirty_frame]. done.
Qed.

Lemma InputPlug_set_value_value depth p v w :
  p_value <$> input_plug (InputPlug_set_value depth p v w).2 p =
  (λ _, v) <$> input_plug w p.
Proof.
  unfold InputPlug_set_value; mrun.
  rewrite (frame_values _ _ _ (set_is_dirty_frame depth ByValue p true _)) by tauto.
  rewrite input_plug_update_input, decide_True by done.
  by destruct (input_plug w p).
Qed.


(** Assigning a value clears no flag, and leaves the plug dirty when it
    completes. *)
Lemma update_input_value_dirty_mono p v w :
  dirty_mono w (update_input p (plug_with_value v) w).
Proof.
  intros r Hr. rewrite input_plug_update_input.
  destruct (decide _); [| done]. by destruct (input_plug w r).
Qed.

Lemma InputPlug_set_value_dirty_mono depth p v w :
  dirty_mono w (InputPlug_set_value depth p v w).2.
Proof.
  unfold InputPlug_set_value; mrun.
  etrans; [apply update_input_value_dirty_mono | apply set_is_dirty_true_mono].
Qed.

Lemma InputPlug_set_value_ok_dirty depth p v w w' :
  InputPlug_set_value depth p v w = (Ok tt, w') →
  is_Some (input_plug w p) →
  p_is_dirty <$> input_plug w' p = Some true.
Proof.
  unfold InputPlug_set_value; mrun. intros Hrun Hex.
  apply (set_is_dirty_true_ok _ _ _ _ _ Hrun).
  rewrite input_plug_update_input, decide_True by done.
  by apply fmap_is_Some.
Qed.

(** A loop over plugs without connections does nothing. *)
Lemma for_each_unconnected (body : plug_ref → M unit) (plugs : list Plug) w :
  (∀ plug, plug ∈ plugs → p_connections plug = []) →
  for_each (λ plug, for_each body (p_connections plug)) plugs w = (Ok tt, w).
Proof.
  intros Hplugs. induction plugs as [|plug plugs IH]; [done |].
  rewrite for_each_cons, (Hplugs plug) by left. simpl.
  apply IH. intros q Hq. apply Hplugs. by right.
Qed.

(** On a node whose outputs are not connected, assigning an input value
    changes the dirty flag of no other plug. *)
Lemma InputPlug_set_value_unconnected_flags depth p v w r :
  (∀ name plug, output_plug w (p.1, name) = Some plug → p_connections plug = []) →
  r ≠ p →
  p_is_dirty <$> input_plug (InputPlug_set_value depth p v w).2 r =
  p_is_dirty <$> input_plug w r.
Proof.
  intros Hout Hr.
  assert (∀ f, p_is_dirty <$> input_plug (update_input p f w) r =
               p_is_dirty <$> input_plug w r) as Hone
    by (intros f; by rewrite input_plug_update_input, decide_False).
  unfold InputPlug_set_value; mrun.
  destruct depth as [|depth]; [apply Hone |].
  simpl. unfold InputPlug_set_is_dirty_with; mrun.
  destruct (input_plug _ p) as [iplug|]; [| apply Hone].
  assert (p_is_dirty <$>
            input_plug (update_input p (plug_with_dirty true)
                          (update_input p (plug_with_value v) w)) r =
          p_is_dirty <$> input_plug w r) as Htwo
    by (by rewrite !input_plug_update_input, !decide_False).
  destruct (true && notifies ByValue (p_is_dirty iplug)); [| apply Htwo].
  unfold on_input_plug_set_dirty_with; mrun.
  case_match eqn:Hn; [| apply Htwo].
  rewrite for_each_unconnected; [apply Htwo |].
  intros plug Hplug.
  destruct (output_plug_of_value _ _ _ _ Hn Hplug) as [name Hname].
  rewrite !output_plug_update_input in Hname. by apply (Hout name).
Qed.

(** On a node whose outputs are not connected, assigning an input value
    propagates nowhere and completes. *)
Lemma InputPlug_set_value_unconnected depth p v w :
  (∀ name plug, output_plug w (p.1, name) = Some plug → p_connections plug = []) →
  0 < depth →
  ∃ w', InputPlug_set_value depth p v w = (Ok tt, w').
Proof.
  intros Hout Hdepth. destruct depth as [|depth]; [lia |].
  unfold InputPlug_set_value; mrun. simpl.
  unfold InputPlug_set_is_dirty_with; mrun.
  destruct (input_plug _ p) as [iplug|]; [| by eexists].
  destruct (true && notifies ByValue (p_is_dirty iplug)); [| by eexists].
  unfold on_input_plug_set_dirty_with; mrun.
  case_match eqn:Hn; [| by eexists].
  apply for_each_returns. intros plug v1 Hplug. exists v1.
  destruct (output_plug_of_value _ _ _ _ Hn Hplug) as [name Hname].
  rewrite !output_plug_update_input in Hname.
  by rewrite (Hout name plug Hname).
Qed.

Lemma OutputPlug_set_value_frame depth p v w :
  plugs_frame w (OutputPlug_set_value depth p v w).2.
Proof.
  unfold OutputPlug_set_value; mrun.
  destruct (output_plug w p); [| done].
  etrans; [apply (update_output_value_frame p v) |].
  apply (for_each_inv _). intros q w1 _.
  eapply inputs_frame_plugs_frame, InputPlug_set_value_frame.
Qed.

(** Writing an output plug changes the value of that output plug and of no
    other, whether the pushes downstream complete or not. *)
Lemma OutputPlug_set_value_outputs depth p v w r :
  output_plug (OutputPlug_set_value depth p v w).2 r =
  if decide (p = r) then plug_with_value v <$> output_plug w r else output_plug w r.
Proof.
  unfold OutputPlug_set_value; mrun.
  destruct (output_plug w p) as [plug|] eqn:Hp.
  - cbn [snd].
    rewrite <-output_plug_update_output.
    apply (inputs_frame_output_plug (λ _, True)).
    apply (for_each_inv _). intros q w1 _.
    eapply inputs_frame_weaken; [| apply InputPlug_set_value_frame]. done.
  - cbn [snd]. destruct (decide _) as [<- |]; [| done]. by rewrite Hp.
Qed.


(** ** The loops of [evaluate] *)

Lemma write_output_frame depth self item w :
  plugs_frame w (write_output depth self item w).2.
Proof.
  unfold write_output; mrun.
  destruct (nodes w !! self) as [n|]; [| done]; cbn [snd fst].
  destruct (n_outputs n !! item.1); [| done].
  apply OutputPlug_set_value_frame.
Qed.

Lemma write_output_ok depth self item w w' r :
  write_output depth self item w = (Ok tt, w') →
  output_plug w' r =
  if decide ((self, item.1) = r) then plug_with_value item.2 <$> output_plug w r
  else output_plug w r.
Proof.
  unfold write_output; mrun.
  destruct (nodes w !! self) as [n|]; [| done]; cbn [snd fst].
  destruct (n_outputs n !! item.1); [| done].
  intros Hrun. rewrite <-OutputPlug_set_value_outputs with (depth := depth).
  by rewrite Hrun.
Qed.

Lemma write_output_ok_is_Some depth self item w w' :
  write_output depth self item w = (Ok tt, w') →
  is_Some (output_plug w (self, item.1)).
Proof.
  unfold write_output, output_plug; mrun.
  destruct (nodes w !! self) as [n|]; [| done]; cbn [snd fst]; simpl.
  by destruct (n_outputs n !! item.1).
Qed.


(** After the first loop an output plug named in the result holds the
    result's value for it; every other output plug is as it was. *)
Lemma write_outputs_ok depth self (items : list (string * py)) w w' :
  NoDup items.*1 →
  for_each (write_output depth self) items w = (Ok tt, w') →
  ∀ r, output_plug w' r =
       (λ plug, plug_with_value
                  (default (p_value plug)
                     (if decide (r.1 = self)
                      then (list_to_map items : gmap string py) !! r.2
                      else None)) plug)
       <$> output_plug w r.
Proof.
  revert w. induction items as [|[k v] items IH]; intros w Hnd Hrun r.
  - injection Hrun as <-. simpl. rewrite lookup_empty.
    assert ((if decide (r.1 = self) then None else None) = @None py) as ->
      by (by destruct (decide _)).
    simpl. destruct (output_plug w r) as [plug|]; [| done].
    simpl. by rewrite plug_with_value_id.
  - rewrite for_each_cons in Hrun.
    destruct (write_output depth self (k, v) w) as [[[]|e] w1] eqn:Hstep; [| done].
    apply NoDup_cons in Hnd as [Hk Hnd].
    rewrite (IH w1 Hnd Hrun r), (write_output_ok _ _ _ _ _ r Hstep).
    simpl. destruct r as [m name]; simpl.
    destruct (decide (m = self)) as [-> |Hm].
    + destruct (decide (k = name)) as [-> |Hname].
      * rewrite decide_True by done. rewrite lookup_insert_eq.
        apply (not_elem_of_list_to_map_1 (M := gmap string)) in Hk.
        simpl in Hk. rewrite Hk.
        destruct (output_plug w (self, name)) as [plug|]; [| done]. done.
      * rewrite decide_False by congruence. by rewrite lookup_insert_ne.
    + rewrite decide_False by congruence. done.
Qed.

Lemma clean_input_frame depth self name w :
  inputs_frame (λ _, False) w (clean_input depth self name w).2.
Proof. apply set_is_dirty_frame. Qed.

(** After the second loop the input plugs it ran over are clean. *)
Lemma clean_inputs_ok depth self names w w' :
  for_each (clean_input depth self) names w = (Ok tt, w') →
  ∀ name, name ∈ names → is_Some (input_plug w (self, name)) →
          p_is_dirty <$> input_plug w' (self, name) = Some false.
Proof.
  revert w. induction names as [|k names IH]; intros w Hrun name Hname Hex.
  - by apply elem_of_nil in Hname.
  - rewrite for_each_cons in Hrun.
    destruct (clean_input depth self k w) as [[[]|e] w1] eqn:Hstep; [| done].
    assert (is_Some (input_plug w1 (self, name))) as Hex1.
    { apply (inputs_frame_input_is_Some (λ _, False) w); [| done].
      replace w1 with (clean_input depth self k w).2 by (by rewrite Hstep).
      apply clean_input_frame. }
    destruct (decide (name ∈ names)) as [Hin|Hnotin]; [by apply (IH w1) |].
    apply elem_of_cons in Hname as [-> | ?]; [| done].
    assert (p_is_dirty <$> input_plug w1 (self, k) = Some false) as Hk.
    { unfold clean_input in Hstep. destruct depth as [|depth]; [done |].
      rewrite set_is_dirty_false in Hstep. destruct Hex as [plug Hplug].
      rewrite Hplug in Hstep. injection Hstep as <-.
      rewrite input_plug_update_input, decide_True by done. by rewrite Hplug. }
    clear Hstep IH. revert w1 Hrun Hex1 Hk.
    induction names as [|k' names IH]; intros w1 Hrun Hex1 Hk.
    + by injection Hrun as <-.
    + rewrite for_each_cons in Hrun.
      destruct (clean_input depth self k' w1) as [[[]|e] w2] eqn:Hstep; [| done].
      apply not_elem_of_cons in Hnotin as [Hne Hnotin].
      unfold clean_input in Hstep. destruct depth as [|depth]; [done |].
      rewrite set_is_dirty_false in Hstep.
      apply (IH Hnotin w2 Hrun); injection Hstep as <-.
      * destruct (input_plug w1 (self, k')); [| done].
        rewrite input_plug_update_input, decide_False by congruence. done.
      * destruct (input_plug w1 (self, k')); [| done].
        rewrite input_plug_update_input, decide_False by congruence. done.
Qed.

Lemma clean_inputs_total depth self names w :
  0 < depth → ∃ w', for_each (clean_input depth self) names w = (Ok tt, w').
Proof.
  intros Hdepth. revert w. induction names as [|k names IH]; intros w.
  - by eexists.
  - rewrite for_each_cons. unfold clean_input at 1.
    destruct depth as [|depth]; [lia |]. rewrite set_is_dirty_false. apply IH.
Qed.

(** What a completed [evaluate] went through. *)
Lemma evaluate_ok_inv depth self w outs w' :
  evaluate depth self w = (Ok outs, w') →
  ∃ n r d w1 n1 w2 n2,
    nodes w !! self = Some n ∧
    cls_compute (n_class n) (p_value <$> n_inputs n) = Ok r ∧
    (if truthy r then r else PyDict ∅) = PyDict d ∧
    outs = PyDict d ∧
    for_each (write_output depth self) (map_to_list d) w = (Ok tt, w1) ∧
    nodes w1 !! self = Some n1 ∧
    for_each (clean_input depth self) (map_to_list (n_inputs n1)).*1 w1 = (Ok tt, w2) ∧
    nodes w2 !! self = Some n2 ∧
    w' = mkWorld (nodes w2) (log w2 ++ [Computed (n_name n2)]).
Proof.
  unfold evaluate, push_message; mrun.
  destruct (nodes w !! self) as [n|] eqn:Hn; [| done].
  destruct (cls_compute (n_class n) (p_value <$> n_inputs n)) as [r|] eqn:Hr; [| done].
  destruct (if truthy r then r else PyDict ∅) as [| | | | |d] eqn:Hd; try done.
  cbn [py_items].
  destruct (for_each (write_output depth self) (map_to_list d) w)
    as [[[]|e1] w1] eqn:Hloop1; [| done].
  destruct (nodes w1 !! self) as [n1|] eqn:Hn1; [| done].
  destruct (for_each (clean_input depth self) (map_to_list (n_inputs n1)).*1 w1)
    as [[[]|e2] w2] eqn:Hloop2; [| done].
  destruct (nodes w2 !! self) as [n2|] eqn:Hn2; [| done].
  intros [= <- <-]. by exists n, r, d, w1, n1, w2, n2.
Qed.

Lemma computed_outputs r d :
  r = PyDict d ∨ (r = PyNone ∧ d = ∅) →
  (if truthy r then r else PyDict ∅) = PyDict d.
Proof.
  intros [-> | [-> ->]]; [| done]. simpl.
  destruct (map_to_list d) eqn:Hd; [| done].
  apply map_to_list_empty_iff in Hd. by subst.
Qed.

(** ** Termination on acyclic wiring *)

Section Acyclic.
Variable rank : nat → nat.

Lemma inputs_frame_ranked V w w' :
  inputs_frame V w w' → ranked rank w → ranked rank w'.
Proof.
  intros Hf Hr r plug q Hplug. rewrite (inputs_frame_output_plug _ _ _ _ Hf) in Hplug.
  by apply Hr.
Qed.

Lemma plugs_frame_ranked w w' :
  plugs_frame w w' → ranked rank w → ranked rank w'.
Proof.
  intros [_ _ _ Ho] Hr r plug q Hplug Hq. specialize (Ho r).
  rewrite Hplug in Ho. destruct (output_plug w r) as [plug0|] eqn:Hplug0; [| done].
  simpl in Ho. apply (Hr r plug0 q Hplug0). by injection Ho as _ <-.
Qed.

Lemma rankedb_sound w : rankedb rank w = true → ranked rank w.
Proof.
  unfold rankedb. rewrite forallb_forall. intros Hall [m name] plug q Hplug Hq.
  unfold output_plug in Hplug; simpl in Hplug.
  destruct (nodes w !! m) as [n|] eqn:Hn; [| done]. simpl in Hplug.
  specialize (Hall (m, n)). simpl in Hall.
  rewrite forallb_forall in Hall.
  assert (In (m, n) (map_to_list (nodes w))) as Hin
    by (by apply list_elem_of_In, elem_of_map_to_list).
  specialize (Hall Hin plug).
  rewrite forallb_forall in Hall.
  assert (In plug (map_to_list (n_outputs n)).*2) as Hin'
    by (apply list_elem_of_In, elem_of_plug_values; eauto).
  specialize (Hall Hin' q (proj1 (list_elem_of_In _ _) Hq)).
  by apply Nat.ltb_lt in Hall.
Qed.

(** Marking a plug nests no deeper than the rank of its node. *)
Lemma set_is_dirty_total depth how p status w :
  ranked rank w → rank p.1 < depth →
  ∃ w', InputPlug_set_is_dirty depth how p status w = (Ok tt, w') ∧ ranked rank w'.
Proof.
  revert how p status w.
  induction depth as [|depth IH]; intros how p status w Hw Hp; [lia |].
  simpl. unfold InputPlug_set_is_dirty_with; mrun.
  destruct (input_plug w p) as [iplug|]; [| by exists w].
  assert (ranked rank (update_input p (plug_with_dirty status) w)) as Hw1.
  { eapply (inputs_frame_ranked (λ _, False)); [| done]. by apply update_input_frame. }
  destruct (status && notifies how (p_is_dirty iplug)); [| by eexists].
  unfold on_input_plug_set_dirty_with; mrun.
  case_match eqn:Hn; [| by eexists].
  apply (for_each_total (ranked rank)); [| done]. intros plug w1 Hplug Hw2.
  apply (for_each_total (ranked rank)); [| done]. intros q w2 Hq Hw3.
  apply IH; [done |].
  destruct (output_plug_of_value _ _ _ _ Hn Hplug) as [name Hname].
  pose proof (Hw1 _ _ _ Hname Hq) as Hlt. simpl in Hlt. lia.
Qed.

Lemma on_input_plug_set_dirty_total depth self p w :
  ranked rank w → rank self ≤ depth →
  ∃ w', on_input_plug_set_dirty depth self p w = (Ok tt, w') ∧ ranked rank w'.
Proof.
  intros Hw Hself.
  unfold on_input_plug_set_dirty, on_input_plug_set_dirty_with; mrun.
  case_match eqn:Hn; [| by eexists].
  apply (for_each_total (ranked rank)); [| done]. intros plug w1 Hplug Hw2.
  apply (for_each_total (ranked rank)); [| done]. intros q w2 Hq Hw3.
  apply set_is_dirty_total; [done |].
  destruct (output_plug_of_value _ _ _ _ Hn Hplug) as [name Hname].
  pose proof (Hw _ _ _ Hname Hq) as Hlt. simpl in Hlt. lia.
Qed.

Lemma InputPlug_set_value_total depth p v w :
  ranked rank w → rank p.1 < depth →
  ∃ w', InputPlug_set_value depth p v w = (Ok tt, w') ∧ ranked rank w'.
Proof.
  intros Hw Hp. unfold InputPlug_set_value; mrun.
  apply set_is_dirty_total; [| done].
  eapply (inputs_frame_ranked (λ _, True)); [| done]. by apply update_input_frame.
Qed.

Lemma OutputPlug_set_value_total depth p v w :
  ranked rank w → rank p.1 ≤ depth →
  ∃ w', OutputPlug_set_value depth p v w = (Ok tt, w').
Proof.
  intros Hw Hp. unfold OutputPlug_set_value; mrun.
  destruct (output_plug w p) as [plug|] eqn:Hplug; [| by eexists].
  destruct (for_each_total (ranked rank)
               (λ q, InputPlug_set_value depth q v) (p_connections plug))
    with (w := update_output p (plug_with_value v) w) as (w' & Hrun & _);
    [| | by eauto].
  - intros q w1 Hq Hw1. apply InputPlug_set_value_total; [done |].
    pose proof (Hw _ _ _ Hplug Hq). lia.
  - eapply plugs_frame_ranked; [apply update_output_value_frame | done].
Qed.

Lemma write_output_total depth self item w :
  ranked rank w → rank self ≤ depth →
  is_Some (output_plug w (self, item.1)) →
  ∃ w', write_output depth self item w = (Ok tt, w').
Proof.
  intros Hw Hself. unfold write_output, output_plug; mrun.
  destruct (nodes w !! self) as [n|]; cbn [snd fst]; simpl; [| by intros [? ?]].
  intros [plug ->]. by apply OutputPlug_set_value_total.
Qed.

(** [evaluate] completes when the result names output plugs only. *)
Lemma evaluate_total depth self w n r d :
  nodes w !! self = Some n →
  cls_compute (n_class n) (p_value <$> n_inputs n) = Ok r →
  r = PyDict d ∨ (r = PyNone ∧ d = ∅) →
  dom d ⊆ dom (n_outputs n) →
  ranked rank w → rank self < depth →
  ∃ w', evaluate depth self w = (Ok (PyDict d), w').
Proof.
  intros Hn Hr Hd Hdom Hrank Hdepth. apply computed_outputs in Hd.
  destruct (for_each_total (plugs_frame w) (write_output depth self) (map_to_list d))
    with (w := w) as (w1 & Hloop1 & Hw1); [| done |].
  { intros [k v] v1 Hk Hv1. apply elem_of_map_to_list in Hk.
    destruct (write_output_total depth self (k, v) v1) as [v2 Hv2].
    - by apply (plugs_frame_ranked w).
    - lia.
    - apply (plugs_frame_output_is_Some w); [done |].
      unfold output_plug; simpl. rewrite Hn; simpl.
      apply elem_of_dom, Hdom, elem_of_dom. eauto.
    - exists v2. split; [done |]. etrans; [exact Hv1 |].
      replace v2 with (write_output depth self (k, v) v1).2 by (by rewrite Hv2).
      apply write_output_frame. }
  destruct (plugs_frame_node _ _ _ _ Hw1 Hn) as (n1 & Hn1 & _).
  destruct (clean_inputs_total depth self (map_to_list (n_inputs n1)).*1 w1)
    as [w2 Hloop2]; [lia |].
  assert (inputs_frame (λ _, False) w1 w2) as Hw2.
  { replace w2 with (for_each (clean_input depth self) (map_to_list (n_inputs n1)).*1 w1).2
      by (by rewrite Hloop2).
    apply (for_each_inv _). intros k v _. apply clean_input_frame. }
  destruct (plugs_frame_node _ _ _ _ (inputs_frame_plugs_frame _ _ _ Hw2) Hn1)
    as (n2 & Hn2 & _).
  unfold evaluate, push_message; mrun.
  rewrite Hn, Hr, Hd. cbn [py_items]. rewrite Hloop1, Hn1, Hloop2, Hn2. eauto.
Qed.

End Acyclic.

(** ** The dirty-propagation hook *)

(** C3: whenever [on_input_plug_set_dirty] returns, every plug
    connected to one of the node's output plugs is dirty, and nothing but
    dirty flags of input plugs has changed: no value was recomputed, the
    connections walked are the ones the outputs had.  On wiring without
    cycles, and within the interpreter's nesting limit, it does return. *)
Theorem on_input_plug_set_dirty_marks_connected depth self p w n :
  nodes w !! self = Some n →
  (∀ w', on_input_plug_set_dirty depth self p w = (Ok tt, w') →
     inputs_frame (λ _, False) w w' ∧
     ∀ name plug q,
       n_outputs n !! name = Some plug → q ∈ p_connections plug →
       is_Some (input_plug w q) →
       p_is_dirty <$> input_plug w' q = Some true) ∧
  (∀ rank, ranked rank w → rank self ≤ depth →
     ∃ w', on_input_plug_set_dirty depth self p w = (Ok tt, w')).
Proof.
  intros Hn. split.
  - intros w' Hrun. split.
    { replace w' with (on_input_plug_set_dirty depth self p w).2 by (by rewrite Hrun).
      apply on_input_plug_set_dirty_frame. }
    intros name plug q Hplug Hq Hex.
    unfold on_input_plug_set_dirty, on_input_plug_set_dirty_with in Hrun.
    revert Hrun. mrun. rewrite Hn. intros Hrun.
    assert (plug ∈ (map_to_list (n_outputs n)).*2) as Hin
      by (apply elem_of_plug_values; eauto).
    destruct (for_each_ok_elem flag_step _ _
                (λ o v _, for_each_inv flag_step _ _
                   (λ q v' _, set_is_dirty_true_step depth ByFlag q v') v)
                w w' Hrun plug Hin)
      as (w1 & w2 & Hw1 & Hinner & Hw2).
    destruct (for_each_ok_elem flag_step _ _
                (λ q v' _, set_is_dirty_true_step depth ByFlag q v')
                w1 w2 Hinner q Hq)
      as (v1 & v2 & Hv1 & Hset & Hv2).
    apply Hw2, Hv2. apply (set_is_dirty_true_ok _ _ _ _ _ Hset).
    apply (inputs_frame_input_is_Some (λ _, False) w); [| done].
    etrans; [apply Hw1 | apply Hv1].
  - intros rank Hw Hself.
    destruct (on_input_plug_set_dirty_total rank depth self p w Hw Hself)
      as (w' & Hrun & _). eauto.
Qed.

(** ** [evaluate] *)

(** C1: on a node whose [compute], handed the values of the input
    plugs by name, returns a mapping [d] (or [None], read as the empty
    mapping), a completed [evaluate] has returned [d], left in each output
    plug the value [d] has for its name, or the old value when [d] has none,
    left every input plug clean and logged the node's name; with an empty
    [d] no plug value has changed anywhere.  [evaluate] does complete when
    [d] names output plugs only and the wiring has no cycle within the
    interpreter's nesting limit. *)
Theorem evaluate_spec depth self w n r d :
  nodes w !! self = Some n →
  cls_compute (n_class n) (p_value <$> n_inputs n) = Ok r →
  r = PyDict d ∨ (r = PyNone ∧ d = ∅) →
  (∀ outs w', evaluate depth self w = (Ok outs, w') →
     outs = PyDict d ∧
     (∀ name plug, n_outputs n !! name = Some plug →
        output_plug w' (self, name) =
        Some (plug_with_value (default (p_value plug) (d !! name)) plug)) ∧
     (∀ name, is_Some (n_inputs n !! name) →
        p_is_dirty <$> input_plug w' (self, name) = Some false) ∧
     (d = ∅ →
        (∀ q, output_plug w' q = output_plug w q) ∧
        (∀ q, p_value <$> input_plug w' q = p_value <$> input_plug w q)) ∧
     log w' = log w ++ [Computed (n_name n)]) ∧
  (∀ rank, dom d ⊆ dom (n_outputs n) → ranked rank w → rank self < depth →
     ∃ w', evaluate depth self w = (Ok (PyDict d), w')).
Proof.
  intros Hn Hr Hd. split; [| intros rank ? ? ?; by apply (evaluate_total rank _ _ _ n r)].
  intros outs w' Hrun.
  apply evaluate_ok_inv in Hrun
    as (n0 & r0 & d0 & w1 & n1 & w2 & n2 & Hn0 & Hr0 & Hd0 & -> & Hloop1 &
        Hn1 & Hloop2 & Hn2 & ->).
  assert (n0 = n) as -> by congruence.
  assert (r0 = r) as -> by congruence.
  assert (d0 = d) as -> by (apply computed_outputs in Hd; congruence).
  clear Hn0 Hr0 Hd0.
  assert (plugs_frame w w1) as Hw1.
  { replace w1 with (for_each (write_output depth self) (map_to_list d) w).2
      by (by rewrite Hloop1).
    apply (for_each_inv _). intros item v _. apply write_output_frame. }
  assert (inputs_frame (λ _, False) w1 w2) as Hw2.
  { replace w2 with (for_each (clean_input depth self) (map_to_list (n_inputs n1)).*1 w1).2
      by (by rewrite Hloop2).
    apply (for_each_inv _). intros k v _. apply clean_input_frame. }
  split_and!.
  - done.
  - intros name plug Hplug.
    change (output_plug w2 (self, name) =
            Some (plug_with_value (default (p_value plug) (d !! name)) plug)).
    rewrite (inputs_frame_output_plug _ _ _ _ Hw2).
    rewrite (write_outputs_ok depth self _ w w1 (NoDup_fst_map_to_list d) Hloop1).
    simpl. rewrite decide_True by done. rewrite list_to_map_to_list.
    unfold output_plug; simpl. by rewrite Hn; simpl; rewrite Hplug.
  - intros name Hname.
    change (p_is_dirty <$> input_plug w2 (self, name) = Some false).
    assert (is_Some (input_plug w1 (self, name))) as Hex.
    { apply (plugs_frame_input_is_Some w); [done |].
      unfold input_plug; simpl. by rewrite Hn. }
    apply (clean_inputs_ok depth self _ w1 w2 Hloop2); [| done].
    apply input_names_elem. unfold input_plug in Hex; simpl in Hex.
    by rewrite Hn1 in Hex.
  - intros ->. rewrite map_to_list_empty in Hloop1. injection Hloop1 as <-.
    split; intros q.
    + apply (inputs_frame_output_plug _ _ _ _ Hw2).
    + change (p_value <$> input_plug w2 q = p_value <$> input_plug w q).
      apply (frame_values _ _ _ Hw2). tauto.
  - simpl. rewrite (frame_log _ _ _ Hw2), (pf_log _ _ Hw1). do 2 f_equal.
    destruct (plugs_frame_node _ _ _ _ Hw1 Hn) as (n1' & Hn1' & _ & Hname1 & _).
    destruct (plugs_frame_node _ _ _ _ (inputs_frame_plugs_frame _ _ _ Hw2) Hn1)
      as (n2' & Hn2' & _ & Hname2 & _).
    simplify_eq. congruence.
Qed.

(** ** Feedback *)

(** When every marking invokes the hook, an input plug fed by an output
    plug of its own node cannot be marked dirty: the hook marks it again, and
    the nesting only ends at the interpreter's limit. *)
Lemma set_is_dirty_feedback depth how self name k plug w :
  (∀ how' was_dirty, notifies how' was_dirty = true) →
  output_plug w (self, name) = Some plug →
  (self, k) ∈ p_connections plug →
  is_Some (input_plug w (self, k)) →
  (InputPlug_set_is_dirty depth how (self, k) true w).1 = Raise RecursionError.
Proof.
  intros Halways Hplug Hk Hin.
  destruct (InputPlug_set_is_dirty depth how (self, k) true w) as [[[]|e] w'] eqn:Hrun;
    [exfalso | apply set_is_dirty_raises in Hrun; by subst].
  revert how w w' Hplug Hin Hrun.
  induction depth as [|depth IH]; intros how w w' Hplug [iplug Hin]; simpl; [done |].
  unfold InputPlug_set_is_dirty_with; mrun. rewrite Hin. cbn [andb]. rewrite Halways.
  unfold on_input_plug_set_dirty_with; mrun.
  set (w1 := update_input (self, k) (plug_with_dirty true) w).
  assert (inputs_frame (λ _, False) w w1) as Hw1 by (by apply update_input_frame).
  pose proof Hplug as Hplug1.
  rewrite <-(inputs_frame_output_plug _ _ _ _ Hw1) in Hplug1.
  unfold output_plug in Hplug1. cbn [fst snd] in *.
  destruct (nodes w1 !! self) as [n1|] eqn:Hn1; [| done]. simpl in Hplug1.
  intros Hrun.
  destruct (for_each_ok_elem (inputs_frame (λ _, False)) _ _
              (λ o v _, for_each_inv (inputs_frame (λ _, False)) _ _
                 (λ q v' _, set_is_dirty_frame depth ByFlag q true v') v)
              w1 w' Hrun plug)
    as (v1 & v2 & Hv1 & Hinner & _).
  { apply elem_of_plug_values. eauto. }
  destruct (for_each_ok_elem (inputs_frame (λ _, False)) _ _
              (λ q v' _, set_is_dirty_frame depth ByFlag q true v')
              v1 v2 Hinner (self, k) Hk)
    as (u1 & u2 & Hu1 & Hset & _).
  assert (inputs_frame (λ _, False) w u1) as Hu by (etrans; [| etrans]; eauto).
  apply (IH ByFlag u1 u2); [| | done].
  - by rewrite (inputs_frame_output_plug _ _ _ _ Hu).
  - apply (inputs_frame_input_is_Some _ _ _ _ Hu). eauto.
Qed.

(** So, when every marking invokes the hook, an [evaluate] that writes an
    output plug connected back to an input plug of the same node does not
    return. *)
Lemma evaluate_feedback_raises depth self w n d name v plug k :
  (∀ how was_dirty, notifies how was_dirty = true) →
  nodes w !! self = Some n →
  cls_compute (n_class n) (p_value <$> n_inputs n) = Ok (PyDict d) →
  d !! name = Some v →
  n_outputs n !! name = Some plug →
  (self, k) ∈ p_connections plug →
  is_Some (n_inputs n !! k) →
  ∀ outs w', evaluate depth self w ≠ (Ok outs, w').
Proof.
  intros Halways Hn Hr Hv Hplug Hk Hin outs w' Hrun.
  apply evaluate_ok_inv in Hrun
    as (n0 & r0 & d0 & w1 & n1 & w2 & n2 & Hn0 & Hr0 & Hd0 & _ & Hloop1 & _).
  assert (n0 = n) as -> by congruence.
  assert (r0 = PyDict d) as -> by congruence.
  assert (d0 = d) as ->
    by (pose proof (computed_outputs (PyDict d) d (or_introl eq_refl)); congruence).
  destruct (for_each_ok_elem plugs_frame _ _
              (λ item v1 _, write_output_frame depth self item v1)
              w w1 Hloop1 (name, v))
    as (v1 & v2 & Hv1 & Hstep & _); [by apply elem_of_map_to_list |].
  destruct (plugs_frame_node _ _ _ _ Hv1 Hn) as (nv & Hnv & _).
  pose proof (pf_outputs _ _ Hv1 (self, name)) as Hout.
  assert (output_plug w (self, name) = Some plug) as Hplugw
    by (unfold output_plug; simpl; by rewrite Hn).
  rewrite Hplugw in Hout.
  destruct (output_plug v1 (self, name)) as [plug1|] eqn:Hplug1; [| done].
  simpl in Hout. injection Hout as _ Hconns.
  revert Hstep. unfold write_output; mrun. rewrite Hnv. cbn [fst snd].
  unfold output_plug in Hplug1; simpl in Hplug1. rewrite Hnv in Hplug1; simpl in Hplug1.
  rewrite Hplug1. unfold OutputPlug_set_value; mrun.
  unfold output_plug; cbn [fst snd]. rewrite Hnv; simpl. rewrite Hplug1.
  intros Hpush.
  set (u0 := update_output (self, name) (plug_with_value v) v1) in *.
  destruct (for_each_ok_elem (inputs_frame (λ _, True)) _ _
              (λ q u _, inputs_frame_weaken _ (λ _, True) _ _ (λ _ _, I)
                          (InputPlug_set_value_frame depth q v u))
              u0 v2 Hpush (self, k))
    as (u1 & u2 & Hu1 & Hset & _); [by rewrite Hconns |].
  revert Hset. unfold InputPlug_set_value; mrun. intros Hset.
  set (u1' := update_input (self, k) (plug_with_value v) u1) in *.
  assert (plugs_frame w u1') as Hu.
  { etrans; [exact Hv1 |]. etrans; [apply (update_output_value_frame (self, name) v) |].
    etrans; [eapply inputs_frame_plugs_frame, Hu1 |].
    eapply (inputs_frame_plugs_frame (λ _, True)). by apply update_input_frame. }
  pose proof (pf_outputs _ _ Hu (self, name)) as Hout'. rewrite Hplugw in Hout'.
  destruct (output_plug u1' (self, name)) as [plug'|] eqn:Hplug'; [| done].
  simpl in Hout'. injection Hout' as _ Hconns'.
  pose proof (set_is_dirty_feedback depth ByValue self name k plug' u1' Halways Hplug')
    as Hraise.
  rewrite Hset in Hraise. simpl in Hraise.
  discriminate Hraise.
  - by rewrite Hconns'.
  - apply (plugs_frame_input_is_Some _ _ _ Hu).
    unfold input_plug; simpl. by rewrite Hn.
Qed.

(** ** Failures of [evaluate] *)

(** C5, as the code has it: an exception raised by [compute] leaves
    [evaluate] as it is, the same exception and not one of another class,
    and the store is untouched: no output is written, no flag cleared, no
    message logged. *)
Theorem evaluate_compute_raises depth self w n e :
  nodes w !! self = Some n →
  cls_compute (n_class n) (p_value <$> n_inputs n) = Raise e →
  evaluate depth self w = (Raise e, w).
Proof.
  intros Hn He. unfold evaluate; mrun. by rewrite Hn, He.
Qed.


(** ** [deserialize] *)

Lemma plugs_getitem_ok plugs key name :
  plugs_getitem plugs key = Ok name → key = PyStr name ∧ is_Some (plugs !! name).
Proof.
  destruct key as [| | |s| |]; simpl; try done.
  destruct (plugs !! s) eqn:Hs; [| done]. intros [= <-]. eauto.
Qed.

(** An entry of a document changes the value of an input plug and dirty
    flags, however its assignment ends, and clears no flag. *)
Lemma set_input_inputs_frame depth self input_ w :
  inputs_frame (λ _, True) w (set_input depth self input_ w).2.
Proof.
  unfold set_input; mrun.
  destruct (getitem input_ "value") as [value|]; [| done].
  destruct (getitem input_ "name") as [key|]; [| done].
  destruct (nodes w !! self) as [n|]; [| done]. cbn [fst snd].
  destruct (plugs_getitem (n_inputs n) key) as [name|]; [| done].
  eapply inputs_frame_weaken; [| apply InputPlug_set_value_frame]. done.
Qed.

Lemma set_input_dirty_mono depth self input_ w :
  dirty_mono w (set_input depth self input_ w).2.
Proof.
  unfold set_input; mrun.
  destruct (getitem input_ "value") as [value|]; [| reflexivity].
  destruct (getitem input_ "name") as [key|]; [| reflexivity].
  destruct (nodes w !! self) as [n|]; [| reflexivity]. cbn [fst snd].
  destruct (plugs_getitem (n_inputs n) key) as [name|]; [| reflexivity].
  apply InputPlug_set_value_dirty_mono.
Qed.

Lemma set_input_frame depth self (V : plug_ref → Prop) input_ w :
  (∀ k, getitem input_ "name" = Ok (PyStr k) → V (self, k)) →
  node_frame self V w (set_input depth self input_ w).2.
Proof.
  intros HV. pose proof (set_input_dirty_mono depth self input_ w) as Hmono.
  revert Hmono. unfold set_input; mrun.
  destruct (getitem input_ "value") as [value|]; [| done].
  destruct (getitem input_ "name") as [key|] eqn:Hkey; [| done].
  destruct (nodes w !! self) as [n|]; [| done].
  cbn [fst snd].
  destruct (plugs_getitem (n_inputs n) key) as [name|] eqn:Hname; [| done].
  apply plugs_getitem_ok in Hname as [-> _]. intros Hmono.
  apply (inputs_frame_node_frame self (λ r, r = (self, name))).
  - intros r ->. by apply HV.
  - apply InputPlug_set_value_frame.
  - exact Hmono.
Qed.


Lemma getitem_plug_doc_value k v : getitem (plug_doc k v) "value" = Ok v.
Proof. done. Qed.

Lemma getitem_plug_doc_name k v : getitem (plug_doc k v) "name" = Ok (PyStr k).
Proof. done. Qed.

Lemma set_input_plug_doc depth self k v w :
  set_input depth self (plug_doc k v) w =
  match nodes w !! self with
  | None => (Raise ReferenceError, w)
  | Some n =>
      match n_inputs n !! k with
      | None => (Raise (KeyError (PyStr k)), w)
      | Some _ => InputPlug_set_value depth (self, k) v w
      end
  end.
Proof.
  unfold set_input; mrun.
  rewrite getitem_plug_doc_value, getitem_plug_doc_name.
  destruct (nodes w !! self) as [n|]; [| done]. cbn [fst snd plugs_getitem].
  by destruct (n_inputs n !! k).
Qed.

(** A completed assignment of an entry leaves the plug it names dirty. *)
Lemma set_input_ok_dirty depth self input_ k w w' :
  set_input depth self input_ w = (Ok tt, w') →
  getitem input_ "name" = Ok (PyStr k) →
  p_is_dirty <$> input_plug w' (self, k) = Some true.
Proof.
  intros Hrun Hname. revert Hrun. unfold set_input; mrun. rewrite Hname.
  destruct (getitem input_ "value") as [value|]; [| done].
  destruct (nodes w !! self) as [n|] eqn:Hn; [| done]. cbn [fst snd plugs_getitem].
  destruct (n_inputs n !! k) as [plug|] eqn:Hplug; [| done]. cbn [fst snd].
  intros Hrun. apply (InputPlug_set_value_ok_dirty _ _ _ _ _ Hrun).
  unfold input_plug; simpl. rewrite Hn; simpl. by rewrite Hplug.
Qed.

(** On a node whose outputs are not connected, the assignment of an entry
    changes the dirty flag of no plug but the one it names. *)
Lemma set_input_unconnected_flags depth self input_ w r :
  (∀ name plug, output_plug w (self, name) = Some plug → p_connections plug = []) →
  (r.1 = self → getitem input_ "name" ≠ Ok (PyStr r.2)) →
  p_is_dirty <$> input_plug (set_input depth self input_ w).2 r =
  p_is_dirty <$> input_plug w r.
Proof.
  intros Hout Hr. unfold set_input; mrun.
  destruct (getitem input_ "value") as [value|]; [| done].
  destruct (getitem input_ "name") as [key|] eqn:Hkey; [| done].
  destruct (nodes w !! self) as [n|]; [| done]. cbn [fst snd].
  destruct (plugs_getitem (n_inputs n) key) as [name|] eqn:Hname; [| done].
  apply plugs_getitem_ok in Hname as [-> _].
  apply InputPlug_set_value_unconnected_flags; [done |].
  intros ->. by apply Hr.
Qed.

(** C9: whatever the document and however [deserialize] ends, it
    changes at most the name and the identifier of the node and the values
    of the input plugs the document names.  The log, the classes of the
    nodes, the names and identifiers of other nodes, every output plug,
    every connection, the values of the other input plugs, the set of nodes
    and the sets of plug names of each node are as before: nothing is
    created.  Assigning a value marks the plug dirty: no dirty flag is
    cleared anywhere, a completed [deserialize] leaves every input plug that
    the document names dirty, and on a node whose outputs are not connected
    the flag of no other plug changes. *)
Theorem deserialize_frame depth self data w :
  node_frame self (named_input self data) w (deserialize depth self data w).2 ∧
  dom (nodes (deserialize depth self data w).2) = dom (nodes w) ∧
  (∀ m n n', nodes w !! m = Some n →
             nodes (deserialize depth self data w).2 !! m = Some n' →
             dom (n_inputs n') = dom (n_inputs n) ∧
             dom (n_outputs n') = dom (n_outputs n)) ∧
  (∀ w', deserialize depth self data w = (Ok tt, w') →
         ∀ r, named_input self data r →
              p_is_dirty <$> input_plug w' r = Some true) ∧
  ((∀ name plug, output_plug w (self, name) = Some plug → p_connections plug = []) →
   ∀ r, ¬ named_input self data r →
        p_is_dirty <$> input_plug (deserialize depth self data w).2 r =
        p_is_dirty <$> input_plug w r).
Proof.
  assert (node_frame self (named_input self data) w (deserialize depth self data w).2)
    as Hframe.
  { unfold deserialize; mrun.
    destruct (getitem data "name") as [name|]; [| reflexivity]. cbn [fst snd].
    etrans; [by apply (update_node_head_frame self _ (node_with_name name)) |].
    destruct (getitem data "identifier") as [identifier|]; [| reflexivity]. cbn [fst snd].
    etrans; [by apply (update_node_head_frame self _ (node_with_identifier identifier)) |].
    destruct (getitem data "inputs") as [inputs|] eqn:Hinputs; [| reflexivity].
    cbn [fst snd].
    destruct (py_iter inputs) as [entries|] eqn:Hentries; [| reflexivity]. cbn [fst snd].
    apply (for_each_inv _). intros input_ v Hin.
    apply set_input_frame. intros k Hk. split; [done |].
    by exists inputs, entries, input_. }
  split_and!; [done | by apply (node_frame_doms self _ _ _ Hframe)
              | by apply (node_frame_doms self _ _ _ Hframe) | |].
  - intros w' Hrun [m k] [Hm (inputs & entries & input_ & Hinputs & Hentries & Hin & Hk)].
    simpl in Hm, Hk. subst m.
    revert Hrun. unfold deserialize; mrun.
    destruct (getitem data "name") as [name|]; [| done]. cbn [fst snd].
    destruct (getitem data "identifier") as [identifier|]; [| done]. cbn [fst snd].
    rewrite Hinputs. cbn [fst snd]. rewrite Hentries. cbn [fst snd].
    intros Hloop.
    destruct (for_each_ok_elem dirty_mono _ _
                (λ x v _, set_input_dirty_mono depth self x v) _ _ Hloop input_ Hin)
      as (v1 & v2 & _ & Hstep & Hv2).
    apply Hv2. by apply (set_input_ok_dirty _ _ _ _ _ _ Hstep).
  - intros Hout r Hr.
    set (unconnected := λ v : world,
           ∀ name plug, output_plug v (self, name) = Some plug → p_connections plug = []).
    set (R := λ a b : world,
           unconnected a →
           unconnected b ∧ p_is_dirty <$> input_plug b r = p_is_dirty <$> input_plug a r).
    assert (Reflexive R) as HR by (by intros a Ha).
    assert (Transitive R) as HT.
    { intros a b c Hab Hbc Ha. destruct (Hab Ha) as [Hb Hab'].
      destruct (Hbc Hb) as [Hc Hbc']. split; [done | congruence]. }
    assert (∀ f, (∀ n, n_inputs (f n) = n_inputs n) → (∀ n, n_outputs (f n) = n_outputs n) →
                 ∀ a, R a (update_node self f a)) as Hhead.
    { intros f Hi Ho a Ha. split.
      - intros name plug. rewrite output_plug_update_node by done. apply Ha.
      - by rewrite input_plug_update_node. }
    assert (R w (deserialize depth self data w).2) as Hrun; [| by apply Hrun].
    unfold deserialize; mrun.
    destruct (getitem data "name") as [name|]; [| reflexivity]. cbn [fst snd].
    etrans; [by apply (Hhead (node_with_name name)) |].
    destruct (getitem data "identifier") as [identifier|]; [| reflexivity]. cbn [fst snd].
    etrans; [by apply (Hhead (node_with_identifier identifier)) |].
    destruct (getitem data "inputs") as [inputs|] eqn:Hinputs; [| reflexivity].
    cbn [fst snd].
    destruct (py_iter inputs) as [entries|] eqn:Hentries; [| reflexivity]. cbn [fst snd].
    apply (for_each_inv R). intros input_ v Hin Hv. split.
    + intros oname oplug.
      rewrite (inputs_frame_output_plug _ _ _ _ (set_input_inputs_frame depth self input_ v)).
      apply Hv.
    + apply set_input_unconnected_flags; [done |].
      intros Hself Hk. apply Hr. split; [done |].
      by exists inputs, entries, input_.
Qed.




(** ** Round trip through [serialize] *)

Lemma getitem_serialize_name n : getitem (serialize n) "name" = Ok (n_name n).
Proof. done. Qed.

Lemma getitem_serialize_identifier n :
  getitem (serialize n) "identifier" = Ok (n_identifier n).
Proof. done. Qed.

Lemma getitem_serialize_inputs n :
  getitem (serialize n) "inputs" =
  Ok (PyList (uncurry plug_doc <$> map_to_list (p_value <$> n_inputs n))).
Proof.
  replace (uncurry plug_doc <$> map_to_list (p_value <$> n_inputs n))
    with (uncurry Plug_serialize <$> map_to_list (n_inputs n)); [done |].
  rewrite map_to_list_fmap, <-list_fmap_compose.
  apply list_fmap_ext. by intros _ [k p] _.
Qed.

(** After the loop an input plug named by an entry holds the entry's
    value; the other input plugs hold what they held. *)
Lemma set_inputs_ok depth self (items : list (string * py)) w w' :
  NoDup items.*1 →
  for_each (set_input depth self) (uncurry plug_doc <$> items) w = (Ok tt, w') →
  ∀ name, p_value <$> input_plug w' (self, name) =
          (λ plug, default (p_value plug)
                     ((list_to_map items : gmap string py) !! name))
          <$> input_plug w (self, name).
Proof.
  revert w. induction items as [|[k v] items IH]; intros w Hnd Hrun name.
  - injection Hrun as <-. simpl. rewrite lookup_empty.
    by destruct (input_plug w (self, name)).
  - rewrite fmap_cons, for_each_cons in Hrun. simpl in Hrun.
    destruct (set_input depth self (plug_doc k v) w) as [[[]|e] w1] eqn:Hstep; [| done].
    apply NoDup_cons in Hnd as [Hk Hnd].
    rewrite (IH w1 Hnd Hrun name). clear IH Hrun.
    rewrite set_input_plug_doc in Hstep.
    destruct (nodes w !! self) as [n|] eqn:Hn; [| done].
    destruct (n_inputs n !! k) as [plug|] eqn:Hplug; [| done].
    replace w1 with (InputPlug_set_value depth (self, k) v w).2 by (by rewrite Hstep).
    destruct (decide (k = name)) as [-> |Hname].
    + apply (not_elem_of_list_to_map_1 (M := gmap string)) in Hk. simpl in Hk.
      rewrite Hk. simpl. rewrite lookup_insert_eq.
      pose proof (InputPlug_set_value_value depth (self, name) v w) as Hv.
      destruct (input_plug (InputPlug_set_value depth (self, name) v w).2 (self, name)),
               (input_plug w (self, name)); simpl in *; congruence.
    + simpl. rewrite lookup_insert_ne by done.
      pose proof (frame_values _ _ _ (InputPlug_set_value_frame depth (self, k) v w)
                    (self, name)) as Hv.
      pose proof (frame_connections _ _ _ (InputPlug_set_value_frame depth (self, k) v w)
                    (self, name)) as Hc.
      assert (¬ (self, name) = (self, k)) as Hne by congruence.
      specialize (Hv Hne).
      destruct (input_plug (InputPlug_set_value depth (self, k) v w).2 (self, name)),
               (input_plug w (self, name)); simpl in *; congruence.
Qed.

(** C4: deserializing [serialize original] into a node with the same
    input plug names and no connections on its outputs, as a freshly
    constructed node of the same type is, completes and leaves the node with
    the name, the identifier and every input value of [original]. *)
Theorem deserialize_serialize depth self w original target :
  nodes w !! self = Some target →
  dom (n_inputs target) = dom (n_inputs original) →
  (∀ name plug, n_outputs target !! name = Some plug → p_connections plug = []) →
  0 < depth →
  ∃ w' target',
    deserialize depth self (serialize original) w = (Ok tt, w') ∧
    nodes w' !! self = Some target' ∧
    n_name target' = n_name original ∧
    n_identifier target' = n_identifier original ∧
    ∀ name, p_value <$> n_inputs target' !! name =
            p_value <$> n_inputs original !! name.
Proof.
  intros Hn Hdom Hfresh Hdepth.
  set (items := map_to_list (p_value <$> n_inputs original)).
  set (w2 := update_node self (node_with_identifier (n_identifier original))
               (update_node self (node_with_name (n_name original)) w)).
  set (target2 := node_with_identifier (n_identifier original)
                    (node_with_name (n_name original) target)).
  assert (nodes w2 !! self = Some target2) as Hn2.
  { unfold w2. rewrite !nodes_update_node, !decide_True by done. by rewrite Hn. }
  assert (∀ v, inputs_frame (λ _, True) w2 v →
            ∃ nv, nodes v !! self = Some nv ∧ node_rest nv = node_rest target2 ∧
                  ∀ name, is_Some (n_inputs nv !! name) ↔ is_Some (n_inputs original !! name))
    as Hnode.
  { intros v Hv. pose proof (frame_nodes _ _ _ Hv self) as Hr. rewrite Hn2 in Hr.
    destruct (nodes v !! self) as [nv|] eqn:Hnv; [| done].
    exists nv. split; [done |]. split; [simpl in Hr; congruence |]. intros name.
    pose proof (frame_connections _ _ _ Hv (self, name)) as Hi.
    unfold input_plug in Hi; cbn [fst snd] in Hi. rewrite Hn2, Hnv in Hi; simpl in Hi.
    rewrite <-(fmap_is_Some p_connections (n_inputs nv !! name)), Hi, fmap_is_Some.
    by rewrite <-!elem_of_dom, Hdom. }
  assert (∀ input_ v, input_ ∈ uncurry plug_doc <$> items →
            inputs_frame (λ _, True) v (set_input depth self input_ v).2) as Hframe.
  { intros input_ v Hin. apply list_elem_of_fmap in Hin as ([k x] & -> & _).
    simpl. rewrite set_input_plug_doc.
    destruct (nodes v !! self) as [nv|]; [| done].
    destruct (n_inputs nv !! k); [| done].
    eapply inputs_frame_weaken; [| apply InputPlug_set_value_frame]. done. }
  destruct (for_each_total (inputs_frame (λ _, True) w2) (set_input depth self)
              (uncurry plug_doc <$> items)) with (w := w2)
    as (w' & Hloop & Hw'); [| done |].
  { intros input_ v Hin Hv.
    pose proof (Hframe input_ v Hin) as Hstep.
    apply list_elem_of_fmap in Hin as ([k x] & -> & Hin). simpl in *.
    rewrite set_input_plug_doc in Hstep |- *.
    destruct (Hnode v Hv) as (nv & Hnv & Hrest & Hnames). rewrite Hnv in Hstep |- *.
    assert (is_Some (n_inputs nv !! k)) as [plug Hplug].
    { apply Hnames. apply elem_of_map_to_list in Hin.
      rewrite lookup_fmap in Hin. by destruct (n_inputs original !! k). }
    rewrite Hplug in Hstep |- *.
    destruct (InputPlug_set_value_unconnected depth (self, k) x v) as [v' Hv']; [| done |].
    - intros name oplug Hout. apply (Hfresh name).
      unfold output_plug in Hout; simpl in Hout. rewrite Hnv in Hout; simpl in Hout.
      unfold node_rest in Hrest. injection Hrest as _ _ _ Hrest.
      by rewrite Hrest in Hout.
    - exists v'. split; [done |]. rewrite Hv' in Hstep. by etrans. }
  destruct (Hnode w' Hw') as (target' & Hn' & Hrest & _).
  exists w', target'. split_and!.
  - unfold deserialize; mrun.
    rewrite getitem_serialize_name, getitem_serialize_identifier,
      getitem_serialize_inputs.
    exact Hloop.
  - done.
  - unfold node_rest in Hrest. by injection Hrest as _ -> _ _.
  - unfold node_rest in Hrest. by injection Hrest as _ _ -> _.
  - intros name.
    pose proof (set_inputs_ok depth self items w2 w'
                  (NoDup_fst_map_to_list _) Hloop name) as Hvalues.
    unfold items in Hvalues. rewrite list_to_map_to_list, lookup_fmap in Hvalues.
    unfold input_plug in Hvalues; cbn [fst snd] in Hvalues.
    rewrite Hn', Hn2 in Hvalues; simpl in Hvalues. rewrite Hvalues.
    assert (is_Some (n_inputs target !! name) ↔ is_Some (n_inputs original !! name))
      as Hsame by (by rewrite <-!elem_of_dom, Hdom).
    destruct (n_inputs target !! name) as [tplug|],
             (n_inputs original !! name) as [oplug|]; simpl; try done.
    + destruct Hsame as [[? ?] _]; eauto; done.
    + destruct Hsame as [_ [? ?]]; eauto; done.
Qed.

(** ** Texts *)

Lemma append_cons x (a b : string) : String x a +:+ b = String x (a +:+ b).
Proof. done. Qed.

Lemma append_assoc (a b c : string) : (a +:+ b) +:+ c = a +:+ (b +:+ c).
Proof. induction a as [|x a IH]; [done |]. by rewrite !append_cons, IH. Qed.

Lemma append_nil_r (a : string) : a +:+ "" = a.
Proof. induction a as [|x a IH]; [done |]. by rewrite append_cons, IH. Qed.

Lemma length_append (a b : string) :
  String.length (a +:+ b) = String.length a + String.length b.
Proof. induction a as [|x a IH]; [done |]. rewrite append_cons. simpl. by rewrite IH. Qed.

(** Texts that end in tails of the same length are equal only if their
    heads and their tails are. *)
Lemma append_inj_length (a a' b b' : string) :
  String.length b = String.length b' →
  a +:+ b = a' +:+ b' → a = a' ∧ b = b'.
Proof.
  intros Hlen. revert a'. induction a as [|x a IH]; intros [|x' a'] Heq.
  - done.
  - apply (f_equal String.length) in Heq. rewrite !length_append in Heq.
    simpl in Heq. lia.
  - apply (f_equal String.length) in Heq. rewrite !length_append in Heq.
    simpl in Heq. lia.
  - rewrite !append_cons in Heq. injection Heq as -> Heq.
    by destruct (IH _ Heq) as [-> ->].
Qed.

Lemma length_string_repeat n s :
  String.length (string_repeat n s) = n * String.length s.
Proof. induction n as [|n IH]; simpl; [done |]. by rewrite length_append, IH. Qed.

(** ** [__init__] *)

(** X1: the identifiers that [__init__] generates, [name-uuid], tell nodes
    apart: with uuids of one length, as the texts of [uuid4()] are, two
    generated identifiers are equal only if the names of the nodes (given,
    or taken from the class) and the uuids are. *)
Theorem INode_init_identifier cls cls' name name' uuid uuid' :
  String.length uuid = String.length uuid' →
  n_identifier (INode_init cls name None uuid) =
  n_identifier (INode_init cls' name' None uuid') →
  n_name (INode_init cls name None uuid) = n_name (INode_init cls' name' None uuid') ∧
  uuid = uuid'.
Proof.
  intros Hlen Heq. unfold INode_init in *. simpl in *.
  injection Heq as Heq.
  apply append_inj_length in Heq as [-> Heq].
  - split; [done |]. by injection Heq.
  - by rewrite !length_append, Hlen.
Qed.

(** ** [__unicode__] and [__str__] *)

Lemma length_ljust width s :
  String.length s ≤ width → String.length (ljust width s) = width.
Proof.
  intros Hs. unfold ljust. rewrite length_append, length_string_repeat. simpl. lia.
Qed.

Lemma length_rjust width s :
  String.length s ≤ width → String.length (rjust width s) = width.
Proof.
  intros Hs. unfold rjust. rewrite length_append, length_string_repeat. simpl. lia.
Qed.

Lemma length_center fill width s :
  String.length fill = 1 → String.length s ≤ width →
  String.length (center fill width s) = width.
Proof.
  intros Hfill Hs. unfold center.
  rewrite !length_append, !length_string_repeat, Hfill.
  assert ((width - String.length s) / 2 ≤ width - String.length s)
    by (apply Nat.Div0.div_le_upper_bound; lia).
  lia.
Qed.

Lemma length_max_by_len best l :
  String.length (max_by_len best l) =
  String.length best `max` max_list_with String.length l.
Proof.
  revert best. induction l as [|s l IH]; intros best; simpl; [lia |].
  rewrite IH. destruct (Nat.ltb_spec (String.length best) (String.length s)); lia.
Qed.

Lemma py_max_len_ok l name :
  ∃ longest, py_max_len (l ++ [name]) = Ok longest ∧
             String.length longest = max_list_with String.length (l ++ [name]).
Proof.
  destruct l as [|s l]; simpl; eexists; (split; [done |]).
  - lia.
  - by rewrite length_max_by_len.
Qed.

(** Rows, each preceded by a line break, as [__unicode__] appends them. *)
Lemma concat_newline_cons (row : string) (rows : list string) :
  String.concat newline (row :: rows) =
  row +:+ foldr (λ r rest, newline +:+ r +:+ rest) "" rows.
Proof.
  revert row. induction rows as [|r rows IH]; intros row.
  - simpl. by rewrite append_nil_r.
  - change (String.concat newline (row :: r :: rows))
      with (row +:+ newline +:+ String.concat newline (r :: rows)).
    rewrite IH. simpl. by rewrite ?append_assoc.
Qed.

Lemma foldr_rows_app (rows rows' : list string) :
  foldr (λ r rest, newline +:+ r +:+ rest) "" (rows ++ rows') =
  foldr (λ r rest, newline +:+ r +:+ rest) "" rows +:+
  foldr (λ r rest, newline +:+ r +:+ rest) "" rows'.
Proof.
  induction rows as [|r rows IH]; simpl; [done |].
  by rewrite IH, !append_assoc.
Qed.

Lemma offset_connected (plugs : list Plug) :
  match filter (λ i, connected i = true) plugs with
  | [] => ""
  | _ :: _ => string_repeat 3 " "
  end = if existsb connected plugs then "   " else "".
Proof.
  induction plugs as [|p plugs IH]; simpl; [done |].
  rewrite filter_cons. destruct (decide (connected p = true)) as [Hp|Hp].
  - by rewrite Hp.
  - apply not_true_is_false in Hp. by rewrite Hp.
Qed.

Lemma input_rows n offset width (l : list (string * Plug)) pretty :
  (∀ k p, (k, p) ∈ l → n_inputs n !! k = Some p) →
  ∃ rows,
    fold_result (input_row n offset width) l.*1 pretty =
    Ok (pretty +:+ foldr (λ r rest, newline +:+ r +:+ rest) "" rows) ∧
    Forall2 (λ row kp,
        row = (if connected kp.2 then "-->" else offset) +:+ "o " +:+
              ljust (width - 1) kp.1 +:+ "|") rows l.
Proof.
  revert pretty. induction l as [|[k p] l IH]; intros pretty Hl.
  - exists []. split; [| constructor]. simpl. by rewrite append_nil_r.
  - rewrite fmap_cons. cbn [fold_result fst]. unfold input_row at 1.
    rewrite (Hl k p) by left.
    match goal with
    | |- ∃ rows, fold_result _ _ ?acc = _ ∧ _ =>
        destruct (IH acc) as (rows & Hrows & Hall)
    end.
    { intros k' p' Hin. apply Hl. by right. }
    eexists (_ :: rows). split; [| constructor; [reflexivity | exact Hall]].
    rewrite Hrows. f_equal. simpl. destruct (connected p); by rewrite !append_assoc.
Qed.

Lemma output_rows n offset width (l : list (string * Plug)) pretty :
  (∀ k p, (k, p) ∈ l → n_outputs n !! k = Some p) →
  ∃ rows,
    fold_result (output_row n offset width) l.*1 pretty =
    Ok (pretty +:+ foldr (λ r rest, newline +:+ r +:+ rest) "" rows) ∧
    Forall2 (λ row kp,
        row = offset +:+ "|" +:+ rjust (width - 1) kp.1 +:+ " o" +:+
              (if connected kp.2 then "-->" else "")) rows l.
Proof.
  revert pretty. induction l as [|[k p] l IH]; intros pretty Hl.
  - exists []. split; [| constructor]. simpl. by rewrite append_nil_r.
  - rewrite fmap_cons. cbn [fold_result fst]. unfold output_row at 1.
    rewrite (Hl k p) by left.
    match goal with
    | |- ∃ rows, fold_result _ _ ?acc = _ ∧ _ =>
        destruct (IH acc) as (rows & Hrows & Hall)
    end.
    { intros k' p' Hin. apply Hl. by right. }
    eexists (_ :: rows). split; [| constructor; [reflexivity | exact Hall]].
    rewrite Hrows. f_equal. simpl.
    destruct (connected p); rewrite ?append_assoc, ?append_nil_r; done.
Qed.

Lemma max_list_with_elem {A} (f : A → nat) (l : list A) x :
  x ∈ l → f x ≤ max_list_with f l.
Proof.
  induction l as [|y l IH]; intros Hx; [by apply elem_of_nil in Hx |].
  simpl. apply elem_of_cons in Hx as [-> | Hx]; [lia |]. specialize (IH Hx). lia.
Qed.

Lemma existsb_connected (plugs : list Plug) p :
  p ∈ plugs → connected p = true → existsb connected plugs = true.
Proof.
  intros Hp Hc. apply existsb_exists. exists p. split; [| done].
  by apply list_elem_of_In.
Qed.

(** The rows of the picture. *)
Lemma unicode_rows n name :
  n_name n = PyStr name →
  let width :=
    max_list_with String.length
      ((map_to_list (n_inputs n)).*1 ++ (map_to_list (n_outputs n)).*1 ++ [name]) + 2 in
  let offset := if existsb connected (map_to_list (n_inputs n)).*2 then "   " else "" in
  let bar := string_repeat width "-" in
  ∃ ins outs,
    INode_unicode Python2 n =
      Ok (String.concat newline
            ([offset +:+ "+" +:+ bar +:+ "+";
              offset +:+ "|" +:+ center "/" width (" " +:+ name +:+ " ") +:+ "|";
              offset +:+ "|" +:+ bar +:+ "|"] ++
             ins ++ outs ++ [offset +:+ "+" +:+ bar +:+ "+"])) ∧
    Forall2 (λ row kp,
        row = (if connected kp.2 then "-->" else offset) +:+ "o " +:+
              ljust (width - 1) kp.1 +:+ "|") ins (map_to_list (n_inputs n)) ∧
    Forall2 (λ row kp,
        row = offset +:+ "|" +:+ rjust (width - 1) kp.1 +:+ " o" +:+
              (if connected kp.2 then "-->" else "")) outs (map_to_list (n_outputs n)).
Proof.
  intros Hname width offset bar.
  unfold INode_unicode. rewrite Hname, offset_connected. fold offset.
  rewrite (assoc_L (++)).
  destruct (py_max_len_ok ((map_to_list (n_inputs n)).*1 ++ (map_to_list (n_outputs n)).*1) name)
    as (longest & -> & Hlongest).
  rewrite <-(assoc_L (++)) in Hlongest. fold width in Hlongest.
  assert (String.length longest + 2 = width) as -> by (unfold width; lia).
  cbv zeta.
  match goal with
  | |- context [fold_result (input_row _ _ _) _ ?acc] =>
      destruct (input_rows n offset width (map_to_list (n_inputs n)) acc)
        as (ins & -> & Hins)
  end.
  { intros k p. apply elem_of_map_to_list. }
  match goal with
  | |- context [fold_result (output_row _ _ _) _ ?acc] =>
      destruct (output_rows n offset width (map_to_list (n_outputs n)) acc)
        as (outs & -> & Houts)
  end.
  { intros k p. apply elem_of_map_to_list. }
  exists ins, outs. split_and!; [| done | done].
  f_equal. cbn [app]. rewrite concat_newline_cons. cbn [foldr].
  rewrite !foldr_rows_app. cbn [foldr].
  by rewrite !append_assoc, ?append_nil_r.
Qed.

(** X2: under Python 2 the picture [__unicode__] draws of a node whose name
    is a string is a box: three rows of head, a row for each input plug, a
    row for each output plug and a closing row, separated by line breaks and
    all of the same length, which is the longest of the names of the node
    and its plugs plus four, plus three when an input plug is connected; the
    row of a connected output plug carries an arrow of three more
    characters. *)
Theorem unicode_box n name :
  n_name n = PyStr name →
  let width :=
    max_list_with String.length
      ((map_to_list (n_inputs n)).*1 ++ (map_to_list (n_outputs n)).*1 ++ [name]) + 2 in
  let indent := if existsb connected (map_to_list (n_inputs n)).*2 then 3 else 0 in
  ∃ head ins outs foot,
    INode_unicode Python2 n =
      Ok (String.concat newline (head ++ ins ++ outs ++ [foot])) ∧
    length head = 3 ∧
    length ins = size (n_inputs n) ∧
    Forall (λ row, String.length row = indent + width + 2) (head ++ ins ++ [foot]) ∧
    Forall2 (λ row plug,
        String.length row = indent + width + 2 + (if connected plug then 3 else 0))
      outs (map_to_list (n_outputs n)).*2.
Proof.
  intros Hname width indent.
  destruct (unicode_rows n name Hname) as (ins & outs & Hrun & Hins & Houts).
  fold width in Hrun, Hins, Houts.
  set (offset := if existsb connected (map_to_list (n_inputs n)).*2 then "   " else "")
    in Hrun, Hins, Houts.
  assert (String.length offset = indent) as Hoffset
    by (unfold offset, indent; by destruct (existsb _ _)).
  assert (∀ k, k ∈ (map_to_list (n_inputs n)).*1 ++ (map_to_list (n_outputs n)).*1 ++ [name] →
               String.length k + 2 ≤ width) as Hnames.
  { intros k Hk. unfold width.
    pose proof (max_list_with_elem String.length _ k Hk). lia. }
  set (bar := string_repeat width "-") in Hrun.
  assert (String.length bar = width) as Hbar
    by (unfold bar; rewrite length_string_repeat; simpl; lia).
  assert (2 ≤ width) as Hwidth by (unfold width; lia).
  eexists _, ins, outs, _. split_and!; [exact Hrun | done | | |].
  - by rewrite (Forall2_length _ _ _ Hins), length_map_to_list.
  - rewrite !Forall_app, !Forall_cons, Forall_nil. split_and!; try done.
    + rewrite !length_append, Hbar, Hoffset. simpl. lia.
    + rewrite !length_append, Hoffset, length_center; [simpl; lia | done |].
      rewrite !length_append. simpl.
      assert (String.length name + 2 ≤ width); [| lia].
      apply Hnames. rewrite !elem_of_app, list_elem_of_singleton. auto.
    + rewrite !length_append, Hbar, Hoffset. simpl. lia.
    + apply Forall_forall. intros row Hrow.
      destruct (proj1 (list_elem_of_lookup _ _) Hrow) as [i Hi].
      destruct (Forall2_lookup_l _ _ _ _ _ Hins Hi) as ([k p] & Hkp & ->).
      apply list_elem_of_lookup_2 in Hkp. cbn [fst snd].
      rewrite !length_append, length_ljust.
      * assert (String.length (if connected p then "-->" else offset) = indent) as ->;
          [| simpl; lia].
        destruct (connected p) eqn:Hp; [| done].
        unfold indent. rewrite (existsb_connected _ p); [done | | done].
        apply list_elem_of_fmap. by exists (k, p).
      * assert (String.length k + 2 ≤ width); [| lia].
        apply Hnames. rewrite !elem_of_app. left.
        apply list_elem_of_fmap. by exists (k, p).
    + rewrite !length_append, Hbar, Hoffset. simpl. lia.
  - apply Forall2_fmap_r, Forall2_same_length_lookup.
    split; [by eapply Forall2_length |].
    intros i row [k p] Hrow Hkp.
    rewrite (Forall2_lookup_lr _ _ _ _ _ _ Houts Hrow Hkp).
    apply list_elem_of_lookup_2 in Hkp. cbn [fst snd compose].
    rewrite !length_append, Hoffset, length_rjust.
    + destruct (connected p); simpl; lia.
    + assert (String.length k + 2 ≤ width); [| lia].
      apply Hnames. rewrite !elem_of_app. right; left.
      apply list_elem_of_fmap. by exists (k, p).
Qed.

Lemma ascii_only_append a b : ascii_only (a +:+ b) = ascii_only a && ascii_only b.
Proof.
  unfold ascii_only. induction a as [|x a IH]; [done |].
  rewrite append_cons. simpl. by rewrite IH, andb_assoc.
Qed.

Lemma ascii_only_string_repeat n s :
  ascii_only s = true → ascii_only (string_repeat n s) = true.
Proof.
  intros Hs. induction n as [|n IH]; simpl; [done |].
  by rewrite ascii_only_append, Hs, IH.
Qed.

Lemma ascii_only_rows (rows : list string) :
  ascii_only (foldr (λ r rest, newline +:+ r +:+ rest) "" rows) =
  forallb ascii_only rows.
Proof.
  induction rows as [|r rows IH]; simpl; [done |].
  by rewrite !ascii_only_append, IH.
Qed.

Lemma forallb_Forall2_eq {A B} (f : A → bool) (g : B → bool) (l : list A) (k : list B) :
  Forall2 (λ x y, f x = g y) l k → forallb f l = forallb g k.
Proof. induction 1 as [|x y l k Hxy _ IH]; simpl; [done |]. by rewrite Hxy, IH. Qed.

(** X3: under Python 2, [__str__] returns the picture of [__unicode__] when
    the name of the node and the names of its plugs are ASCII, and raises
    [UnicodeDecodeError] when one of them has a byte above 127. *)
Theorem str_ascii n name :
  n_name n = PyStr name →
  INode_str Python2 n =
  if ascii_only name && forallb ascii_only (map_to_list (n_inputs n)).*1 &&
     forallb ascii_only (map_to_list (n_outputs n)).*1
  then INode_unicode Python2 n
  else Raise UnicodeDecodeError.
Proof.
  intros Hname. unfold INode_str.
  destruct (unicode_rows n name Hname) as (ins & outs & -> & Hins & Houts).
  cbn [encode_decode].
  match goal with
  | |- (if ascii_only ?s then _ else _) = (if ?b then _ else _) =>
      assert (ascii_only s = b) as ->; [| done]
  end.
  cbn [app]. rewrite concat_newline_cons, ascii_only_append, ascii_only_rows.
  cbn [forallb]. rewrite !forallb_app. cbn [forallb].
  rewrite (forallb_Forall2_eq ascii_only (ascii_only ∘ fst) ins (map_to_list (n_inputs n))),
          (forallb_Forall2_eq ascii_only (ascii_only ∘ fst) outs (map_to_list (n_outputs n))).
  - rewrite !ascii_only_append.
    unfold center, ljust, rjust. rewrite !ascii_only_append.
    rewrite !ascii_only_string_repeat by done.
    assert (∀ A (l : list (string * A)),
              forallb (ascii_only ∘ fst) l = forallb ascii_only l.*1) as Hfst.
    { intros A l. induction l as [|[k p] l IH]; simpl; [done |]. by rewrite IH. }
    rewrite !Hfst.
    destruct (existsb connected _); simpl;
      destruct (ascii_only name), (forallb ascii_only (map_to_list (n_inputs n)).*1),
               (forallb ascii_only (map_to_list (n_outputs n)).*1); done.
  - eapply Forall2_impl; [exact Houts |]. intros row [k p] ->. cbn [fst snd compose].
    unfold rjust. rewrite !ascii_only_append, ascii_only_string_repeat by done.
    destruct (existsb connected _), (connected p), (ascii_only k); done.
  - eapply Forall2_impl; [exact Hins |]. intros row [k p] ->. cbn [fst snd compose].
    unfold ljust. rewrite !ascii_only_append, ascii_only_string_repeat by done.
    destruct (existsb connected _), (connected p), (ascii_only k); done.
Qed.

(** ** Sinks and downstream nodes *)

(** X4: on a node none of whose output plugs is connected, the hook returns
    and changes nothing, at any nesting depth. *)
Theorem on_input_plug_set_dirty_sink depth self p w n :
  nodes w !! self = Some n →
  (∀ name plug, n_outputs n !! name = Some plug → p_connections plug = []) →
  on_input_plug_set_dirty depth self p w = (Ok tt, w).
Proof.
  intros Hn Hout.
  unfold on_input_plug_set_dirty, on_input_plug_set_dirty_with; mrun.
  rewrite Hn. apply for_each_unconnected.
  intros plug Hplug. apply elem_of_plug_values in Hplug as [name Hname]. eauto.
Qed.

(** X5: the hook clears no dirty flag, whether it returns or raises, and
    the only exception it raises is the one of the nesting limit. *)
Theorem on_input_plug_set_dirty_never_cleans depth self p w :
  dirty_mono w (on_input_plug_set_dirty depth self p w).2 ∧
  ∀ e w', on_input_plug_set_dirty depth self p w = (Raise e, w') →
          e = RecursionError.
Proof.
  unfold on_input_plug_set_dirty, on_input_plug_set_dirty_with; mrun.
  destruct (nodes w !! self) as [n|]; [| split; [reflexivity | done]].
  split.
  - apply (for_each_inv _). intros plug w1 _.
    apply (for_each_inv _). intros q w2 _. apply set_is_dirty_true_mono.
  - intros e w' Hrun.
    apply for_each_raise in Hrun as (o & w1 & _ & Hrun).
    apply for_each_raise in Hrun as (q & w2 & _ & Hrun).
    by apply set_is_dirty_raises in Hrun.
Qed.

(** What a completed hook has marked. *)
Lemma on_input_plug_set_dirty_ok depth self p w w' n name plug q :
  nodes w !! self = Some n →
  on_input_plug_set_dirty depth self p w = (Ok tt, w') →
  n_outputs n !! name = Some plug → q ∈ p_connections plug →
  is_Some (input_plug w q) →
  p_is_dirty <$> input_plug w' q = Some true.
Proof.
  intros Hn Hrun Hplug Hq Hex.
  unfold on_input_plug_set_dirty, on_input_plug_set_dirty_with in Hrun.
  revert Hrun. mrun. rewrite Hn. intros Hrun.
  assert (plug ∈ (map_to_list (n_outputs n)).*2) as Hin
    by (apply elem_of_plug_values; eauto).
  destruct (for_each_ok_elem flag_step _ _
              (λ o v _, for_each_inv flag_step _ _
                 (λ q v' _, set_is_dirty_true_step depth ByFlag q v') v)
              w w' Hrun plug Hin)
    as (w1 & w2 & Hw1 & Hinner & Hw2).
  destruct (for_each_ok_elem flag_step _ _
              (λ q v' _, set_is_dirty_true_step depth ByFlag q v')
              w1 w2 Hinner q Hq)
    as (v1 & v2 & Hv1 & Hset & Hv2).
  apply Hw2, Hv2. apply (set_is_dirty_true_ok _ _ _ _ _ Hset).
  apply (inputs_frame_input_is_Some (λ _, False) w); [| done].
  etrans; [apply Hw1 | apply Hv1].
Qed.

(** An input plug that is dirty makes its node dirty. *)
Lemma is_dirty_of_plug w q :
  p_is_dirty <$> input_plug w q = Some true →
  ∃ m, nodes w !! q.1 = Some m ∧ is_dirty m = true.
Proof.
  unfold input_plug. destruct (nodes w !! q.1) as [m|]; [| done]. simpl.
  destruct (n_inputs m !! q.2) as [plug|] eqn:Hplug; [| done]. simpl.
  intros [= Hd]. exists m. split; [done |].
  apply is_dirty_true_iff. eauto.
Qed.

(** X6: when the plugs connected to the outputs of a node exist, a
    completed hook leaves every node of [downstream_nodes] dirty. *)
Theorem on_input_plug_set_dirty_downstream depth self p w w' n :
  nodes w !! self = Some n →
  (∀ name plug q, n_outputs n !! name = Some plug → q ∈ p_connections plug →
                  is_Some (input_plug w q)) →
  on_input_plug_set_dirty depth self p w = (Ok tt, w') →
  ∀ m, m ∈ downstream_nodes n →
       ∃ n', nodes w' !! m = Some n' ∧ is_dirty n' = true.
Proof.
  intros Hn Hwired Hrun m Hm.
  unfold downstream_nodes in Hm.
  rewrite elem_of_elements, elem_of_list_to_set, elem_of_connected_nodes in Hm.
  destruct Hm as (name & plug & q & Hplug & Hq & <-).
  apply is_dirty_of_plug.
  by apply (on_input_plug_set_dirty_ok depth self p w w' n name plug q); eauto.
Qed.

(** ** Evaluations that fail *)

Lemma OutputPlug_set_value_dirty_mono depth p v w :
  dirty_mono w (OutputPlug_set_value depth p v w).2.
Proof.
  unfold OutputPlug_set_value; mrun.
  destruct (output_plug w p); [| reflexivity]. cbn [snd].
  etrans; [| apply (for_each_inv dirty_mono); intros q w1 _;
             apply InputPlug_set_value_dirty_mono].
  intros r Hr. by rewrite input_plug_update_output.
Qed.

Lemma write_output_dirty_mono depth self item w :
  dirty_mono w (write_output depth self item w).2.
Proof.
  unfold write_output; mrun.
  destruct (nodes w !! self) as [n|]; [| reflexivity]; cbn [snd fst].
  destruct (n_outputs n !! item.1); [| reflexivity].
  apply OutputPlug_set_value_dirty_mono.
Qed.

(** The loop that cleans the inputs raises only where the nesting limit
    lets no setter run, and has changed nothing then. *)
Lemma clean_inputs_raises depth self names w e w' :
  for_each (clean_input depth self) names w = (Raise e, w') → w' = w.
Proof.
  intros Hrun. destruct depth as [|depth].
  - destruct names as [|k names]; [done |].
    rewrite for_each_cons in Hrun. unfold clean_input in Hrun at 1.
    simpl in Hrun. unfold raise in Hrun. congruence.
  - destruct (clean_inputs_total (S depth) self names w) as [w2 Hw2]; [lia |].
    congruence.
Qed.

(** A node that is dirty stays dirty in a store where no flag was cleared. *)
Lemma dirty_mono_is_dirty w w' self n :
  dirty_mono w w' → nodes w !! self = Some n → is_dirty n = true →
  ∃ n', nodes w' !! self = Some n' ∧ is_dirty n' = true.
Proof.
  intros Hmono Hn Hd. apply is_dirty_true_iff in Hd as (name & plug & Hplug & Hd).
  apply (is_dirty_of_plug w' (self, name)), Hmono.
  unfold input_plug; simpl. rewrite Hn; simpl. by rewrite Hplug; simpl; rewrite Hd.
Qed.

(** X7: an [evaluate] that raises has logged nothing and has cleared no
    dirty flag: a node that was dirty before is dirty after, and will be
    evaluated again. *)
Theorem evaluate_raises_keeps_dirty depth self w e w' :
  evaluate depth self w = (Raise e, w') →
  log w' = log w ∧ dirty_mono w w' ∧
  ∀ m n, nodes w !! m = Some n → is_dirty n = true →
         ∃ n', nodes w' !! m = Some n' ∧ is_dirty n' = true.
Proof.
  intros Hrun.
  assert (log w' = log w ∧ dirty_mono w w') as [Hlog Hmono];
    [| split_and!; [done | done | intros m n; by apply dirty_mono_is_dirty]].
  revert Hrun. unfold evaluate, push_message; mrun.
  destruct (nodes w !! self) as [n|] eqn:Hn; [| intros [= _ <-]; split; reflexivity].
  destruct (cls_compute (n_class n) (p_value <$> n_inputs n)) as [r|];
    [| intros [= _ <-]; split; reflexivity].
  destruct (py_items (if truthy r then r else PyDict ∅)) as [items|];
    [| intros [= _ <-]; split; reflexivity].
  pose proof (for_each_inv plugs_frame (write_output depth self) items
                (λ item v _, write_output_frame depth self item v) w) as Hframe.
  pose proof (for_each_inv dirty_mono (write_output depth self) items
                (λ item v _, write_output_dirty_mono depth self item v) w) as Hdirty.
  destruct (for_each (write_output depth self) items w) as [[[]|e1] w1];
    cbn [fst snd] in *; [| intros [= _ <-]; split; [apply Hframe | done]].
  destruct (nodes w1 !! self) as [n1|] eqn:Hn1;
    [| intros [= _ <-]; split; [apply Hframe | done]].
  destruct (for_each (clean_input depth self) (map_to_list (n_inputs n1)).*1 w1)
    as [[[]|e2] w2] eqn:Hclean.
  - pose proof (for_each_inv (inputs_frame (λ _, False)) (clean_input depth self)
                  (map_to_list (n_inputs n1)).*1
                  (λ k v _, clean_input_frame depth self k v) w1) as Hframe2.
    rewrite Hclean in Hframe2. cbn [snd] in Hframe2.
    pose proof (frame_nodes _ _ _ Hframe2 self) as Hself. rewrite Hn1 in Hself.
    destruct (nodes w2 !! self); [done | done].
  - apply clean_inputs_raises in Hclean as ->.
    intros [= _ <-]. split; [apply Hframe | done].
Qed.

(** ** Results of [compute] that are no mappings *)

(** X8: a result of [compute] that is true as a condition and is not a
    dictionary (a number, a text, a non-empty list) makes [evaluate] raise
    [AttributeError], from [outputs.items()], before anything is written. *)
Theorem evaluate_not_a_mapping depth self w n r :
  nodes w !! self = Some n →
  cls_compute (n_class n) (p_value <$> n_inputs n) = Ok r →
  truthy r = true → (∀ d, r ≠ PyDict d) →
  evaluate depth self w = (Raise AttributeError, w).
Proof.
  intros Hn Hr Htrue Hdict. unfold evaluate; mrun.
  rewrite Hn, Hr, Htrue. destruct r; try done. by destruct (Hdict d).
Qed.

(** X9: a result of [compute] that is false as a condition ([None],
    [False], [0], an empty text, list or dictionary) stands for no outputs:
    [evaluate] completes wherever a setter may run at all, returns an empty
    dictionary, changes no value of any plug, leaves the inputs of the node
    clean and logs the node's name. *)
Theorem evaluate_falsy depth self w n r :
  nodes w !! self = Some n →
  cls_compute (n_class n) (p_value <$> n_inputs n) = Ok r →
  truthy r = false → 0 < depth →
  ∃ w', evaluate depth self w = (Ok (PyDict ∅), w') ∧
        (∀ q, output_plug w' q = output_plug w q) ∧
        (∀ q, p_value <$> input_plug w' q = p_value <$> input_plug w q) ∧
        (∀ name, is_Some (n_inputs n !! name) →
                 p_is_dirty <$> input_plug w' (self, name) = Some false) ∧
        log w' = log w ++ [Computed (n_name n)].
Proof.
  intros Hn Hr Hfalse Hdepth.
  destruct (clean_inputs_total depth self (map_to_list (n_inputs n)).*1 w Hdepth)
    as [w2 Hclean].
  assert (inputs_frame (λ _, False) w w2) as Hframe.
  { replace w2 with (for_each (clean_input depth self) (map_to_list (n_inputs n)).*1 w).2
      by (by rewrite Hclean).
    apply (for_each_inv _). intros k v _. apply clean_input_frame. }
  pose proof (frame_nodes _ _ _ Hframe self) as Hself. rewrite Hn in Hself.
  destruct (nodes w2 !! self) as [n2|] eqn:Hn2; [| done].
  injection Hself as Hself. unfold node_rest in Hself.
  exists (mkWorld (nodes w2) (log w2 ++ [Computed (n_name n2)])). split_and!.
  - unfold evaluate, push_message; mrun.
    rewrite Hn, Hr, Hfalse. cbn [py_items]. rewrite map_to_list_empty.
    cbn [for_each]; mrun. rewrite Hn, Hclean, Hn2. done.
  - intros q. apply (inputs_frame_output_plug _ _ _ _ Hframe).
  - intros q. apply (frame_values _ _ _ Hframe). tauto.
  - intros name Hname.
    apply (clean_inputs_ok depth self _ w w2 Hclean).
    + by apply input_names_elem.
    + unfold input_plug; simpl. by rewrite Hn.
  - simpl. rewrite (frame_log _ _ _ Hframe). do 3 f_equal. congruence.
Qed.

(** ** What [evaluate] leaves alone *)

(** However it ends, [evaluate] changes values of plugs and dirty flags of
    input plugs only, apart from the log. *)
Lemma evaluate_plugs_frame depth self w :
  plugs_frame w (mkWorld (nodes (evaluate depth self w).2) (log w)).
Proof.
  assert (∀ w' l, plugs_frame w w' →
            plugs_frame w (mkWorld (nodes (mkWorld (nodes w') l)) (log w))) as Hlog
    by (intros w' l [? ? ? ?]; by split).
  assert (∀ w', plugs_frame w w' → plugs_frame w (mkWorld (nodes w') (log w))) as Hlog'
    by (intros w' [? ? ? ?]; by split).
  unfold evaluate, push_message; mrun.
  destruct (nodes w !! self) as [n|] eqn:Hn; [| by apply Hlog'].
  destruct (cls_compute (n_class n) (p_value <$> n_inputs n)) as [r|]; [| by apply Hlog'].
  destruct (py_items (if truthy r then r else PyDict ∅)) as [items|]; [| by apply Hlog'].
  pose proof (for_each_inv plugs_frame (write_output depth self) items
                (λ item v _, write_output_frame depth self item v) w) as Hframe.
  destruct (for_each (write_output depth self) items w) as [[[]|e1] w1];
    cbn [fst snd] in *; [| by apply Hlog'].
  destruct (nodes w1 !! self) as [n1|] eqn:Hn1; [| by apply Hlog'].
  pose proof (for_each_inv (inputs_frame (λ _, False)) (clean_input depth self)
                (map_to_list (n_inputs n1)).*1
                (λ k v _, clean_input_frame depth self k v) w1) as Hframe2.
  apply inputs_frame_plugs_frame in Hframe2.
  destruct (for_each (clean_input depth self) (map_to_list (n_inputs n1)).*1 w1)
    as [[[]|e2] w2]; cbn [fst snd] in *;
    [| apply Hlog'; etrans; [exact Hframe | exact Hframe2]].
  destruct (nodes w2 !! self); cbn [fst snd];
    [apply Hlog | apply Hlog']; (etrans; [exact Hframe | exact Hframe2]).
Qed.

(** Nodes with the same connections have the same neighbours. *)
Lemma connected_nodes_ext (plugs plugs' : gmap string Plug) :
  (∀ k, p_connections <$> plugs' !! k = p_connections <$> plugs !! k) →
  elements (list_to_set (C := gset nat) (connected_nodes plugs')) =
  elements (list_to_set (C := gset nat) (connected_nodes plugs)).
Proof.
  intros Hext. f_equal. apply set_eq. intros m.
  rewrite !elem_of_list_to_set, !elem_of_connected_nodes.
  assert (∀ a b : gmap string Plug,
            (∀ k, p_connections <$> a !! k = p_connections <$> b !! k) →
            (∃ name plug c, a !! name = Some plug ∧ c ∈ p_connections plug ∧ c.1 = m) →
            ∃ name plug c, b !! name = Some plug ∧ c ∈ p_connections plug ∧ c.1 = m)
    as Hone.
  { intros a b Hab (name & plug & c & Hplug & Hc & Hm).
    specialize (Hab name). rewrite Hplug in Hab. simpl in Hab.
    destruct (b !! name) as [plug'|] eqn:Hplug'; [| done].
    injection Hab as Hab. exists name, plug', c. by rewrite <-Hab. }
  split; apply Hone; [done | by intros k; rewrite Hext].
Qed.

(** X10: [evaluate] creates, removes, renames and rewires nothing, however
    it ends: the store has the same nodes, and each node its class, name
    and identifier, its plugs by name, and the same [upstream_nodes] and
    [downstream_nodes]. *)
Theorem evaluate_keeps_wiring depth self w :
  dom (nodes (evaluate depth self w).2) = dom (nodes w) ∧
  ∀ m n, nodes w !! m = Some n →
    ∃ n', nodes (evaluate depth self w).2 !! m = Some n' ∧
          n_class n' = n_class n ∧ n_name n' = n_name n ∧
          n_identifier n' = n_identifier n ∧
          dom (n_inputs n') = dom (n_inputs n) ∧
          dom (n_outputs n') = dom (n_outputs n) ∧
          upstream_nodes n' = upstream_nodes n ∧
          downstream_nodes n' = downstream_nodes n.
Proof.
  pose proof (evaluate_plugs_frame depth self w) as Hframe.
  set (w' := (evaluate depth self w).2) in *.
  split.
  - apply set_eq. intros m. rewrite !elem_of_dom.
    pose proof (pf_nodes _ _ Hframe m) as Hm. simpl in Hm.
    rewrite <-(fmap_is_Some (λ n, (n_class n, n_name n, n_identifier n)) (nodes w' !! m)),
            Hm.
    apply fmap_is_Some.
  - intros m n Hn.
    destruct (plugs_frame_node _ _ _ _ Hframe Hn) as (n' & Hn' & Hcls & Hname & Hid).
    simpl in Hn'. exists n'.
    assert (∀ k, p_connections <$> n_inputs n' !! k = p_connections <$> n_inputs n !! k)
      as Hins.
    { intros k. pose proof (pf_inputs _ _ Hframe (m, k)) as Hk.
      unfold input_plug in Hk; simpl in Hk. by rewrite Hn, Hn' in Hk. }
    assert (∀ k, p_connections <$> n_outputs n' !! k = p_connections <$> n_outputs n !! k)
      as Houts.
    { intros k. pose proof (pf_outputs _ _ Hframe (m, k)) as Hk.
      unfold output_plug in Hk; simpl in Hk. rewrite Hn, Hn' in Hk; simpl in Hk.
      destruct (n_outputs n' !! k), (n_outputs n !! k); simpl in *; congruence. }
    assert (∀ a b : gmap string Plug,
              (∀ k, p_connections <$> a !! k = p_connections <$> b !! k) →
              dom a = dom b) as Hdom.
    { intros a b Hab. apply set_eq. intros k. rewrite !elem_of_dom.
      rewrite <-(fmap_is_Some p_connections (a !! k)), Hab. apply fmap_is_Some. }
    split_and!; [done | done | done | done | by apply Hdom | by apply Hdom | |].
    + by apply connected_nodes_ext.
    + by apply connected_nodes_ext.
Qed.

(** ** What [evaluate] passes on *)

Lemma for_each_app {A} (body : A → M unit) (l1 l2 : list A) w w' :
  for_each body (l1 ++ l2) w = (Ok tt, w') →
  ∃ w1, for_each body l1 w = (Ok tt, w1) ∧ for_each body l2 w1 = (Ok tt, w').
Proof.
  revert w. induction l1 as [|x l1 IH]; intros w Hrun; [by exists w |].
  simpl app in Hrun. rewrite for_each_cons in *.
  destruct (body x w) as [[[]|e] w0]; [| done]. by apply IH.
Qed.

(** The pushes of one value into connected plugs leave it in each of them. *)
Lemma push_value depth v conns w w' q :
  for_each (λ q', InputPlug_set_value depth q' v) conns w = (Ok tt, w') →
  q ∈ conns → is_Some (input_plug w q) →
  p_value <$> input_plug w' q = Some v ∧
  p_is_dirty <$> input_plug w' q = Some true.
Proof.
  revert w. induction conns as [|q' conns IH]; intros w Hrun Hq Hex.
  - by apply elem_of_nil in Hq.
  - rewrite for_each_cons in Hrun.
    destruct (InputPlug_set_value depth q' v w) as [[[]|e] w1] eqn:Hstep; [| done].
    assert (inputs_frame (λ r, r = q') w w1) as Hw1.
    { replace w1 with (InputPlug_set_value depth q' v w).2 by (by rewrite Hstep).
      apply InputPlug_set_value_frame. }
    destruct (decide (q ∈ conns)) as [Hin|Hnotin].
    { apply (IH w1); [done | done |].
      by apply (inputs_frame_input_is_Some _ _ _ _ Hw1). }
    apply elem_of_cons in Hq as [-> | ?]; [| done].
    assert (inputs_frame (λ r, r ∈ conns) w1 w') as Hw'.
    { replace w' with (for_each (λ q', InputPlug_set_value depth q' v) conns w1).2
        by (by rewrite Hrun).
      apply (for_each_inv _). intros x u Hx.
      eapply inputs_frame_weaken; [| apply InputPlug_set_value_frame].
      by intros r ->. }
    assert (dirty_mono w1 w') as Hmono.
    { replace w' with (for_each (λ q', InputPlug_set_value depth q' v) conns w1).2
        by (by rewrite Hrun).
      apply (for_each_inv _). intros x u Hx. apply InputPlug_set_value_dirty_mono. }
    split.
    + rewrite (frame_values _ _ _ Hw' q') by done.
      pose proof (InputPlug_set_value_value depth q' v w) as Hv.
      rewrite Hstep in Hv. cbn [snd] in Hv. rewrite Hv.
      by destruct Hex as [? ->].
    + apply Hmono. revert Hstep. unfold InputPlug_set_value; mrun.
      intros Hstep. apply (set_is_dirty_true_ok _ _ _ _ _ Hstep).
      rewrite input_plug_update_input, decide_True by done.
      by apply fmap_is_Some.
Qed.

(** Writing an output plug changes the values of the input plugs connected
    to it and of no other. *)
Lemma OutputPlug_set_value_inputs depth p v w plug r :
  output_plug w p = Some plug → r ∉ p_connections plug →
  p_value <$> input_plug (OutputPlug_set_value depth p v w).2 r =
  p_value <$> input_plug w r.
Proof.
  intros Hplug Hr. unfold OutputPlug_set_value; mrun. rewrite Hplug. cbn [snd].
  rewrite <-(input_plug_update_output p (plug_with_value v) w r).
  apply (frame_values (λ r, r ∈ p_connections plug)); [| done].
  apply (for_each_inv _). intros x u Hx.
  eapply inputs_frame_weaken; [| apply InputPlug_set_value_frame].
  by intros ? ->.
Qed.

(** The writes of outputs that are not connected to an input plug leave its
    value as it is. *)
Lemma write_outputs_value_kept depth self (items : list (string * py)) w q :
  (∀ k x plug, (k, x) ∈ items → output_plug w (self, k) = Some plug →
               q ∉ p_connections plug) →
  p_value <$> input_plug (for_each (write_output depth self) items w).2 q =
  p_value <$> input_plug w q.
Proof.
  revert w. induction items as [|[k x] items IH]; intros w Hitems; [done |].
  rewrite for_each_cons.
  pose proof (write_output_frame depth self (k, x) w) as Hframe.
  assert (p_value <$> input_plug (write_output depth self (k, x) w).2 q =
          p_value <$> input_plug w q) as Hstep.
  { unfold write_output; mrun.
    destruct (nodes w !! self) as [n|] eqn:Hn; [| done]; cbn [fst snd].
    destruct (n_outputs n !! k) as [plug|] eqn:Hplug; [| done].
    assert (output_plug w (self, k) = Some plug) as Hout
      by (unfold output_plug; simpl; by rewrite Hn).
    apply (OutputPlug_set_value_inputs _ _ _ _ plug); [done |].
    apply (Hitems k x); [left | done]. }
  destruct (write_output depth self (k, x) w) as [[[]|e] w1]; cbn [snd] in *; [| done].
  rewrite IH; [done |].
  intros k' x' plug' Hin Hout.
  pose proof (pf_outputs _ _ Hframe (self, k')) as Hk'. rewrite Hout in Hk'.
  destruct (output_plug w (self, k')) as [plug0|] eqn:Hout0; [| done].
  injection Hk' as _ Hc. rewrite Hc.
  apply (Hitems k' x'); [by right | done].
Qed.

(** Cleaning the inputs of a node touches no input plug of another node. *)
Lemma clean_inputs_other depth self names w q :
  q.1 ≠ self →
  input_plug (for_each (clean_input depth self) names w).2 q = input_plug w q.
Proof.
  intros Hq. revert w. induction names as [|k names IH]; intros w; [done |].
  rewrite for_each_cons. unfold clean_input at 1.
  destruct depth as [|depth]; [done |].
  rewrite set_is_dirty_false. fold (clean_input (S depth) self). rewrite IH.
  destruct (input_plug w (self, k)); [| done].
  rewrite input_plug_update_input, decide_False; [done |].
  intros <-. by apply Hq.
Qed.

(** X11: a completed [evaluate] has passed its results on: an input plug of
    another node that is connected to an output named in the result is
    dirty, and so its node is dirty; when no other output named in the
    result is connected to it, it holds the value computed for that
    output. *)
Theorem evaluate_pushes depth self w outs w' n d name v plug q :
  nodes w !! self = Some n →
  cls_compute (n_class n) (p_value <$> n_inputs n) = Ok (PyDict d) →
  evaluate depth self w = (Ok outs, w') →
  d !! name = Some v →
  n_outputs n !! name = Some plug → q ∈ p_connections plug →
  is_Some (input_plug w q) → q.1 ≠ self →
  p_is_dirty <$> input_plug w' q = Some true ∧
  (∃ m, nodes w' !! q.1 = Some m ∧ is_dirty m = true) ∧
  ((∀ name' plug', is_Some (d !! name') → n_outputs n !! name' = Some plug' →
                   q ∈ p_connections plug' → name' = name) →
   p_value <$> input_plug w' q = Some v).
Proof.
  intros Hn Hr Hrun Hv Hplug Hq Hex Hother.
  apply evaluate_ok_inv in Hrun
    as (n0 & r0 & d0 & w1 & n1 & w2 & n2 & Hn0 & Hr0 & Hd0 & -> & Hloop1 &
        Hn1 & Hloop2 & Hn2 & ->).
  assert (n0 = n) as -> by congruence.
  assert (r0 = PyDict d) as -> by congruence.
  assert (d0 = d) as ->
    by (rewrite (computed_outputs (PyDict d) d) in Hd0 by auto; congruence).
  clear Hn0 Hr0 Hd0.
  assert ((name, v) ∈ map_to_list d) as Hin by (by apply elem_of_map_to_list).
  apply list_elem_of_split in Hin as (l1 & l2 & Hsplit).
  pose proof (NoDup_fst_map_to_list d) as Hnd.
  rewrite Hsplit, fmap_app, fmap_cons in Hnd.
  apply NoDup_app in Hnd as (_ & _ & Hnd). apply NoDup_cons in Hnd as [Hl2 _].
  rewrite Hsplit in Hloop1.
  apply for_each_app in Hloop1 as (u1 & Hl1 & Hloop1).
  rewrite for_each_cons in Hloop1.
  destruct (write_output depth self (name, v) u1) as [[[]|e] u2] eqn:Hwrite; [| done].
  assert (plugs_frame w u1) as Hu1.
  { replace u1 with (for_each (write_output depth self) l1 w).2 by (by rewrite Hl1).
    apply (for_each_inv _). intros item u _. apply write_output_frame. }
  assert (plugs_frame u1 u2) as Hu2.
  { replace u2 with (write_output depth self (name, v) u1).2 by (by rewrite Hwrite).
    apply write_output_frame. }
  assert (dirty_mono u2 w1) as Hmono.
  { replace w1 with (for_each (write_output depth self) l2 u2).2 by (by rewrite Hloop1).
    apply (for_each_inv _). intros item u _. apply write_output_dirty_mono. }
  (* the write of [name] *)
  assert (p_value <$> input_plug u2 q = Some v ∧
          p_is_dirty <$> input_plug u2 q = Some true) as [Hvalue Hdirty].
  { revert Hwrite. unfold write_output, OutputPlug_set_value; mrun.
    destruct (nodes u1 !! self) as [m1|] eqn:Hm1; [| done]; cbn [fst snd].
    pose proof (pf_outputs _ _ Hu1 (self, name)) as Hconn.
    unfold output_plug at 2 in Hconn. simpl in Hconn. rewrite Hn in Hconn; simpl in Hconn.
    rewrite Hplug in Hconn.
    unfold output_plug at 1 in Hconn. simpl in Hconn. rewrite Hm1 in Hconn; simpl in Hconn.
    destruct (n_outputs m1 !! name) as [plug1|] eqn:Hplug1; [| done].
    injection Hconn as _ Hconn.
    unfold output_plug at 1. simpl. rewrite Hm1; simpl. rewrite Hplug1.
    intros Hpush. apply (push_value _ _ _ _ _ q) in Hpush; [done | by rewrite Hconn |].
    rewrite input_plug_update_output. by apply (plugs_frame_input_is_Some w). }
  assert (p_is_dirty <$> input_plug w2 q = Some true) as Hflag.
  { replace w2 with (for_each (clean_input depth self) (map_to_list (n_inputs n1)).*1 w1).2
      by (by rewrite Hloop2).
    rewrite clean_inputs_other by done. by apply Hmono. }
  split_and!.
  - exact Hflag.
  - apply is_dirty_of_plug. exact Hflag.
  - intros Honly.
    change (p_value <$> input_plug w2 q = Some v).
    replace w2 with (for_each (clean_input depth self) (map_to_list (n_inputs n1)).*1 w1).2
      by (by rewrite Hloop2).
    rewrite clean_inputs_other by done.
    replace w1 with (for_each (write_output depth self) l2 u2).2 by (by rewrite Hloop1).
    rewrite write_outputs_value_kept; [done |].
    intros k x plug' Hk Hout Hqk.
    assert (k = name) as ->; [| apply Hl2, list_elem_of_fmap; by exists (name, x)].
    pose proof (pf_outputs _ _ (transitivity Hu1 Hu2) (self, k)) as Hconn.
    rewrite Hout in Hconn. unfold output_plug in Hconn. simpl in Hconn.
    rewrite Hn in Hconn; simpl in Hconn.
    destruct (n_outputs n !! k) as [plug0|] eqn:Hplug0; [| done].
    injection Hconn as _ Hconn.
    apply (Honly k plug0); [| done | by rewrite <-Hconn].
    exists x. apply elem_of_map_to_list. rewrite Hsplit.
    apply elem_of_app. right. by right.
Qed.

(** ** Termination when the hook runs on transitions *)

Lemma elem_of_input_refs w r : r ∈ input_refs w ↔ is_Some (input_plug w r).
Proof.
  unfold input_refs, input_plug. rewrite elem_of_list_to_set, list_elem_of_In, in_flat_map.
  destruct r as [m name]. simpl. split.
  - intros ([m' n] & Hn & Hin). apply list_elem_of_In, elem_of_map_to_list in Hn.
    apply list_elem_of_In, list_elem_of_fmap in Hin as (name' & [= -> ->] & Hname).
    rewrite Hn. simpl. by apply input_names_elem.
  - destruct (nodes w !! m) as [n|] eqn:Hn; simpl; [| by intros [? ?]].
    intros Hname. exists (m, n). split.
    + by apply list_elem_of_In, elem_of_map_to_list.
    + apply list_elem_of_In, list_elem_of_fmap. exists name. split; [done |].
      by apply input_names_elem.
Qed.

Lemma clean_within_input_refs w : clean_within (input_refs w) w.
Proof.
  intros r Hr. apply elem_of_input_refs.
  destruct (input_plug w r); [eauto | done].
Qed.

Lemma clean_within_mono C w w' :
  (∀ r, p_is_dirty <$> input_plug w' r = Some false →
        p_is_dirty <$> input_plug w r = Some false) →
  clean_within C w → clean_within C w'.
Proof. intros Hflags Hw r Hr. by apply Hw, Hflags. Qed.

Section Transitions.
Hypothesis transitions : ∀ how, notifies how true = false.

(** When the hook runs only for a plug that was clean, every nested call
    of the setter has made one more plug dirty: marking nests no deeper than
    there are clean plugs, whatever the wiring. *)
Lemma set_is_dirty_transition depth C how p w :
  clean_within C w → size C < depth →
  ∃ w', InputPlug_set_is_dirty depth how p true w = (Ok tt, w') ∧ clean_within C w'.
Proof.
  revert C how p w.
  induction depth as [|depth IH]; intros C how p w Hw Hsize; [lia |].
  simpl. unfold InputPlug_set_is_dirty_with; mrun.
  destruct (input_plug w p) as [iplug|] eqn:Hp; [| by exists w].
  cbn [andb].
  assert (∀ r, p_is_dirty <$> input_plug (update_input p (plug_with_dirty true) w) r
               = Some false →
               r ≠ p ∧ p_is_dirty <$> input_plug w r = Some false) as Hflags.
  { intros r. rewrite input_plug_update_input.
    destruct (decide (p = r)) as [<- |]; [by rewrite Hp | done]. }
  destruct (p_is_dirty iplug) eqn:Hdirty.
  { rewrite transitions. eexists. split; [done |].
    intros r Hr. by apply Hw, Hflags. }
  assert (p ∈ C) as HpC by (apply Hw; by rewrite Hp; simpl; rewrite Hdirty).
  assert (clean_within (C ∖ {[p]}) (update_input p (plug_with_dirty true) w)) as Hw1.
  { intros r Hr. apply Hflags in Hr as [Hne Hr].
    apply elem_of_difference. split; [by apply Hw |]. by apply not_elem_of_singleton. }
  assert (size (C ∖ {[p]}) < depth) as Hsize1.
  { assert (size C = size ({[p]} : gset plug_ref) + size (C ∖ {[p]})) as Hsplit.
    { rewrite <-size_union.
      - f_equal. apply set_eq. intros r.
        rewrite elem_of_union, elem_of_difference, elem_of_singleton. split.
        + intros Hr. destruct (decide (r = p)); [by left | by right].
        + by intros [-> | [Hr _]].
      - intros r Hr Hr'. by apply elem_of_difference in Hr' as [_ Hr']. }
    rewrite size_singleton in Hsplit. lia. }
  assert (∀ v, clean_within (C ∖ {[p]}) v → clean_within C v) as Hback
    by (intros v Hv r Hr; by apply Hv, elem_of_difference in Hr as [? _]).
  destruct (notifies how false); [| eexists; split; [done | by apply Hback]].
  unfold on_input_plug_set_dirty_with; mrun.
  case_match eqn:Hn; [| eexists; split; [done | by apply Hback]].
  destruct (for_each_total (clean_within (C ∖ {[p]}))
              (λ output_plug,
                 for_each (λ connected_plug,
                     InputPlug_set_is_dirty depth ByFlag connected_plug true)
                   (p_connections output_plug))
              (map_to_list (n_outputs n)).*2)
    with (w := update_input p (plug_with_dirty true) w) as (w' & Hrun & Hw'); [| done |].
  { intros plug v _ Hv. apply (for_each_total (clean_within (C ∖ {[p]}))); [| done].
    intros q v1 _ Hv1. by apply IH. }
  exists w'. split; [done | by apply Hback].
Qed.

Lemma InputPlug_set_value_transition depth C p v w :
  clean_within C w → size C < depth →
  ∃ w', InputPlug_set_value depth p v w = (Ok tt, w') ∧ clean_within C w'.
Proof.
  intros Hw Hsize. unfold InputPlug_set_value; mrun.
  apply set_is_dirty_transition; [| done].
  apply (clean_within_mono C w); [| done].
  intros r. rewrite input_plug_update_input.
  destruct (decide _); [| done]. by destruct (input_plug w r).
Qed.

Lemma OutputPlug_set_value_transition depth C p v w :
  clean_within C w → size C < depth →
  ∃ w', OutputPlug_set_value depth p v w = (Ok tt, w') ∧ clean_within C w'.
Proof.
  intros Hw Hsize. unfold OutputPlug_set_value; mrun.
  destruct (output_plug w p) as [plug|]; [| by exists w].
  apply (for_each_total (clean_within C)).
  - intros q v1 _ Hv1. by apply InputPlug_set_value_transition.
  - apply (clean_within_mono C w); [| done].
    intros r. by rewrite input_plug_update_output.
Qed.

(** [evaluate] completes on any wiring, cycles included, when the result
    names output plugs only and the nesting limit exceeds the number of
    input plugs. *)
Lemma evaluate_transition_total depth self w n r d :
  nodes w !! self = Some n →
  cls_compute (n_class n) (p_value <$> n_inputs n) = Ok r →
  r = PyDict d ∨ (r = PyNone ∧ d = ∅) →
  dom d ⊆ dom (n_outputs n) →
  size (input_refs w) < depth →
  ∃ w', evaluate depth self w = (Ok (PyDict d), w').
Proof.
  intros Hn Hr Hd Hdom Hdepth. apply computed_outputs in Hd.
  destruct (for_each_total (λ v, plugs_frame w v ∧ clean_within (input_refs w) v)
              (write_output depth self) (map_to_list d))
    with (w := w) as (w1 & Hloop1 & Hw1 & _).
  { intros [k v] v1 Hk [Hv1 Hclean]. apply elem_of_map_to_list in Hk.
    assert (is_Some (output_plug v1 (self, k))) as [plug Hplug].
    { apply (plugs_frame_output_is_Some w); [done |].
      unfold output_plug; simpl. rewrite Hn; simpl.
      apply elem_of_dom, Hdom, elem_of_dom. eauto. }
    pose proof (write_output_frame depth self (k, v) v1) as Hframe.
    revert Hframe. unfold write_output; mrun.
    unfold output_plug in Hplug; simpl in Hplug.
    destruct (nodes v1 !! self) as [n1|]; [| done]. simpl in Hplug.
    cbn [fst snd]. rewrite Hplug.
    destruct (OutputPlug_set_value_transition depth (input_refs w) (self, k) v v1)
      as (v2 & -> & Hv2); [done | done |].
    intros Hframe. exists v2. split; [done |]. split; [by etrans | done]. }
  { split; [reflexivity | apply clean_within_input_refs]. }
  destruct (plugs_frame_node _ _ _ _ Hw1 Hn) as (n1 & Hn1 & _).
  destruct (clean_inputs_total depth self (map_to_list (n_inputs n1)).*1 w1)
    as [w2 Hloop2]; [lia |].
  assert (inputs_frame (λ _, False) w1 w2) as Hw2.
  { replace w2 with (for_each (clean_input depth self) (map_to_list (n_inputs n1)).*1 w1).2
      by (by rewrite Hloop2).
    apply (for_each_inv _). intros k v _. apply clean_input_frame. }
  destruct (plugs_frame_node _ _ _ _ (inputs_frame_plugs_frame _ _ _ Hw2) Hn1)
    as (n2 & Hn2 & _).
  unfold evaluate, push_message; mrun.
  rewrite Hn, Hr, Hd. cbn [py_items]. rewrite Hloop1, Hn1, Hloop2, Hn2. eauto.
Qed.

End Transitions.

(** ** A node that feeds its own inputs *)

(** The writes of [evaluate] leave dirty every input plug that is connected
    to an output named in the result, the node's own included. *)
Lemma write_outputs_dirty depth self w w1 n (d : gmap string py) name v plug q :
  nodes w !! self = Some n →
  for_each (write_output depth self) (map_to_list d) w = (Ok tt, w1) →
  d !! name = Some v → n_outputs n !! name = Some plug → q ∈ p_connections plug →
  is_Some (input_plug w q) →
  p_is_dirty <$> input_plug w1 q = Some true.
Proof.
  intros Hn Hloop1 Hv Hplug Hq Hex.
  assert ((name, v) ∈ map_to_list d) as Hin by (by apply elem_of_map_to_list).
  apply list_elem_of_split in Hin as (l1 & l2 & Hsplit).
  rewrite Hsplit in Hloop1.
  apply for_each_app in Hloop1 as (u1 & Hl1 & Hloop1).
  rewrite for_each_cons in Hloop1.
  destruct (write_output depth self (name, v) u1) as [[[]|e] u2] eqn:Hwrite; [| done].
  assert (plugs_frame w u1) as Hu1.
  { replace u1 with (for_each (write_output depth self) l1 w).2 by (by rewrite Hl1).
    apply (for_each_inv _). intros item u _. apply write_output_frame. }
  assert (dirty_mono u2 w1) as Hmono.
  { replace w1 with (for_each (write_output depth self) l2 u2).2 by (by rewrite Hloop1).
    apply (for_each_inv _). intros item u _. apply write_output_dirty_mono. }
  apply Hmono.
  revert Hwrite. unfold write_output, OutputPlug_set_value; mrun.
  destruct (nodes u1 !! self) as [m1|] eqn:Hm1; [| done]; cbn [fst snd].
  pose proof (pf_outputs _ _ Hu1 (self, name)) as Hconn.
  unfold output_plug at 2 in Hconn. simpl in Hconn. rewrite Hn in Hconn; simpl in Hconn.
  rewrite Hplug in Hconn.
  unfold output_plug at 1 in Hconn. simpl in Hconn. rewrite Hm1 in Hconn; simpl in Hconn.
  destruct (n_outputs m1 !! name) as [plug1|] eqn:Hplug1; [| done].
  injection Hconn as _ Hconn.
  unfold output_plug at 1. simpl. rewrite Hm1; simpl. rewrite Hplug1.
  intros Hpush. apply (push_value _ _ _ _ _ q) in Hpush as [_ Hdirty];
    [done | by rewrite Hconn |].
  rewrite input_plug_update_output. by apply (plugs_frame_input_is_Some w).
Qed.

(** C10: a node is clean when its [evaluate] has returned, whatever its
    output plugs are connected to.  The writes of the outputs leave dirty an
    input plug of the node that one of the written outputs is connected to,
    and the flags of the input plugs are cleared after them.  [evaluate]
    does return, with the node clean: on any wiring, a node that feeds
    itself included, when the hook runs only for plugs that become dirty and
    the nesting limit exceeds the number of input plugs; and on wiring
    without cycles, within the nesting limit, whenever the hook runs. *)
Theorem evaluate_leaves_clean depth self w :
  (∀ outs w', evaluate depth self w = (Ok outs, w') →
     ∃ n', nodes w' !! self = Some n' ∧ is_dirty n' = false) ∧
  (∀ n d w1 name v plug k,
     nodes w !! self = Some n →
     for_each (write_output depth self) (map_to_list d) w = (Ok tt, w1) →
     d !! name = Some v → n_outputs n !! name = Some plug →
     (self, k) ∈ p_connections plug → is_Some (n_inputs n !! k) →
     p_is_dirty <$> input_plug w1 (self, k) = Some true) ∧
  (∀ n r d,
     nodes w !! self = Some n →
     cls_compute (n_class n) (p_value <$> n_inputs n) = Ok r →
     r = PyDict d ∨ (r = PyNone ∧ d = ∅) →
     dom d ⊆ dom (n_outputs n) →
     ((∀ how, notifies how true = false) ∧ size (input_refs w) < depth) ∨
     (∃ rank, ranked rank w ∧ rank self < depth) →
     ∃ w' n', evaluate depth self w = (Ok (PyDict d), w') ∧
              nodes w' !! self = Some n' ∧ is_dirty n' = false).
Proof.
  assert (∀ outs w', evaluate depth self w = (Ok outs, w') →
            ∃ n', nodes w' !! self = Some n' ∧ is_dirty n' = false) as Hclean.
  { intros outs w' Hrun.
    apply evaluate_ok_inv in Hrun
      as (n & r & d & w1 & n1 & w2 & n2 & Hn & Hr & Hd & Houts & Hloop1 &
          Hn1 & Hloop2 & Hn2 & ->).
    exists n2. split; [done |].
    apply not_true_is_false. rewrite is_dirty_true_iff.
    intros (name & p & Hname & Hdirty).
    assert (inputs_frame (λ _, False) w1 w2) as Hw2.
    { replace w2 with (for_each (clean_input depth self) (map_to_list (n_inputs n1)).*1 w1).2
        by (by rewrite Hloop2).
      apply (for_each_inv _). intros k v _. apply clean_input_frame. }
    assert (input_plug w2 (self, name) = Some p) as Hp
      by (unfold input_plug; simpl; by rewrite Hn2).
    assert (is_Some (input_plug w1 (self, name))) as Hex.
    { apply (inputs_frame_input_is_Some _ _ _ _ Hw2). eauto. }
    assert (name ∈ (map_to_list (n_inputs n1)).*1) as Hin.
    { apply input_names_elem. unfold input_plug in Hex; simpl in Hex.
      by rewrite Hn1 in Hex. }
    pose proof (clean_inputs_ok depth self _ w1 w2 Hloop2 name Hin Hex) as Hcleaned.
    rewrite Hp in Hcleaned. simpl in Hcleaned. congruence. }
  split_and!.
  - exact Hclean.
  - intros n d w1 name v plug k Hn Hloop1 Hv Hplug Hq Hk.
    apply (write_outputs_dirty depth self w w1 n d name v plug); try done.
    unfold input_plug; simpl. by rewrite Hn.
  - intros n r d Hn Hr Hd Hdom Hreturns.
    assert (∃ w', evaluate depth self w = (Ok (PyDict d), w')) as [w' Hrun].
    { destruct Hreturns as [[Htransitions Hdepth] | (rank & Hrank & Hdepth)].
      - by apply (evaluate_transition_total Htransitions _ _ _ n r).
      - by apply (evaluate_total rank _ _ _ n r). }
    destruct (Hclean _ _ Hrun) as (n' & Hn' & Hdirty). eauto.
Qed.

(** ** Documents *)

(** X12: a node serialized after a completed [deserialize] records the name
    and the identifier of the document, and its own module, class and
    outputs as before: the type and the outputs that a document records are
    not read back. *)
Theorem serialize_deserialize depth self data w w' n :
  nodes w !! self = Some n →
  deserialize depth self data w = (Ok tt, w') →
  ∃ n', nodes w' !! self = Some n' ∧
        getitem (serialize n') "name" = getitem data "name" ∧
        getitem (serialize n') "identifier" = getitem data "identifier" ∧
        getitem (serialize n') "module" = getitem (serialize n) "module" ∧
        getitem (serialize n') "cls" = getitem (serialize n) "cls" ∧
        getitem (serialize n') "outputs" = getitem (serialize n) "outputs".
Proof.
  intros Hn. unfold deserialize; mrun.
  destruct (getitem data "name") as [name|]; [| done]. cbn [fst snd].
  destruct (getitem data "identifier") as [identifier|]; [| done]. cbn [fst snd].
  destruct (getitem data "inputs") as [inputs|]; [| done]. cbn [fst snd].
  destruct (py_iter inputs) as [entries|]; [| done]. cbn [fst snd].
  set (w2 := update_node self (node_with_identifier identifier)
               (update_node self (node_with_name name) w)).
  intros Hloop.
  assert (inputs_frame (λ _, True) w2 w') as Hframe.
  { replace w' with (for_each (set_input depth self) entries w2).2 by (by rewrite Hloop).
    apply (for_each_inv _). intros input_ v _. apply set_input_inputs_frame. }
  pose proof (frame_nodes _ _ _ Hframe self) as Hself.
  unfold w2 in Hself. rewrite !nodes_update_node, !decide_True, Hn in Hself by done.
  destruct (nodes w' !! self) as [n'|]; [| done].
  injection Hself as Hcls Hname Hid Houts. simpl in *.
  exists n'. split; [done |].
  unfold serialize, getitem. simpl. by rewrite Hcls, Hname, Hid, Houts.
Qed.

(** The assignment of an entry reads its [name] and its [value]. *)
Lemma set_input_ext depth self input_ input_' :
  getitem input_ "name" = getitem input_' "name" →
  getitem input_ "value" = getitem input_' "value" →
  set_input depth self input_ = set_input depth self input_'.
Proof. intros Hname Hvalue. unfold set_input. by rewrite Hname, Hvalue. Qed.

(** X13: [deserialize] reads the [name], the [identifier] and the [inputs]
    of a document, and of each entry of the inputs its [name] and [value]:
    documents that agree there are deserialized alike, whatever module,
    class, outputs or further fields they record. *)
Theorem deserialize_reads depth self d d' entries entries' w :
  d !! "name" = d' !! "name" →
  d !! "identifier" = d' !! "identifier" →
  d !! "inputs" = Some (PyList entries) →
  d' !! "inputs" = Some (PyList entries') →
  Forall2 (λ input_ input_',
      getitem input_ "name" = getitem input_' "name" ∧
      getitem input_ "value" = getitem input_' "value") entries entries' →
  deserialize depth self (PyDict d) w = deserialize depth self (PyDict d') w.
Proof.
  intros Hname Hid Hinputs Hinputs' Hentries.
  unfold deserialize; mrun. cbn [getitem].
  rewrite Hname, Hid, Hinputs, Hinputs'.
  destruct (d' !! "name") as [name|]; [| done]. cbn [fst snd].
  destruct (d' !! "identifier") as [identifier|]; [| done]. cbn [fst snd py_iter].
  clear Hname Hid Hinputs Hinputs'.
  generalize (update_node self (node_with_identifier identifier)
                (update_node self (node_with_name name) w)).
  induction Hentries as [|input_ input_' entries entries' [Hn Hv] _ IH]; intros v; [done |].
  rewrite !for_each_cons, (set_input_ext depth self input_ input_' Hn Hv).
  destruct (set_input depth self input_' v) as [[[]|e] v1]; [apply IH | done].
Qed.

(** X14: [deserialize] is not atomic.  A document that is no dictionary
    raises [TypeError] and one without [name] raises [KeyError], with
    nothing changed; a document with a name and without [identifier] raises
    [KeyError] with the name of the node replaced; a document without
    [inputs], or with inputs that cannot be iterated over, raises with the
    name and the identifier replaced. *)
Theorem deserialize_header depth self data w :
  ((∀ d, data ≠ PyDict d) →
     deserialize depth self data w = (Raise TypeError, w)) ∧
  (∀ d, data = PyDict d → d !! "name" = None →
     deserialize depth self data w = (Raise (KeyError (PyStr "name")), w)) ∧
  (∀ d name, data = PyDict d → d !! "name" = Some name → d !! "identifier" = None →
     deserialize depth self data w =
     (Raise (KeyError (PyStr "identifier")),
      update_node self (node_with_name name) w)) ∧
  (∀ d name identifier,
     data = PyDict d → d !! "name" = Some name →
     d !! "identifier" = Some identifier →
     (d !! "inputs" = None →
        deserialize depth self data w =
        (Raise (KeyError (PyStr "inputs")),
         update_node self (node_with_identifier identifier)
           (update_node self (node_with_name name) w))) ∧
     (∀ inputs e, d !! "inputs" = Some inputs → py_iter inputs = Raise e →
        deserialize depth self data w =
        (Raise e,
         update_node self (node_with_identifier identifier)
           (update_node self (node_with_name name) w)))).
Proof.
  split_and!.
  - intros Hdata. unfold deserialize; mrun.
    destruct data; try done. by destruct (Hdata d).
  - intros d -> Hname. unfold deserialize; mrun. cbn [getitem].
    by rewrite Hname.
  - intros d name -> Hname Hid. unfold deserialize; mrun. cbn [getitem].
    by rewrite Hname, Hid.
  - intros d name identifier -> Hname Hid. split.
    + intros Hinputs. unfold deserialize; mrun. cbn [getitem].
      by rewrite Hname, Hid, Hinputs.
    + intros inputs e Hinputs He. unfold deserialize; mrun. cbn [getitem].
      by rewrite Hname, Hid, Hinputs; cbn [fst snd]; rewrite He.
Qed.

(** What the assignment of one entry leaves in the input plugs of the node. *)
Lemma set_input_value depth self k v w w' name :
  set_input depth self (plug_doc k v) w = (Ok tt, w') →
  p_value <$> input_plug w' (self, name) =
  (λ plug, if decide (k = name) then v else p_value plug) <$> input_plug w (self, name).
Proof.
  rewrite set_input_plug_doc. intros Hstep.
  destruct (nodes w !! self) as [n|] eqn:Hn; [| done].
  destruct (n_inputs n !! k) as [plug|] eqn:Hplug; [| done].
  replace w' with (InputPlug_set_value depth (self, k) v w).2 by (by rewrite Hstep).
  destruct (decide (k = name)) as [-> |Hname].
  - by rewrite InputPlug_set_value_value.
  - rewrite (frame_values _ _ _ (InputPlug_set_value_frame depth (self, k) v w))
      by congruence.
    by destruct (input_plug w (self, name)).
Qed.

(** After the loop of [deserialize] an input plug holds the value of the
    last entry that names it. *)
Lemma set_inputs_last depth self (items : list (string * py)) w w' name :
  for_each (set_input depth self) (uncurry plug_doc <$> items) w = (Ok tt, w') →
  p_value <$> input_plug w' (self, name) =
  (λ plug, default (p_value plug)
             ((list_to_map (reverse items) : gmap string py) !! name))
  <$> input_plug w (self, name).
Proof.
  revert w. induction items as [|[k v] items IH]; intros w Hloop.
  - injection Hloop as <-. simpl. rewrite lookup_empty.
    by destruct (input_plug w (self, name)).
  - rewrite fmap_cons, for_each_cons in Hloop. simpl in Hloop.
    destruct (set_input depth self (plug_doc k v) w) as [[[]|e] w1] eqn:Hstep; [| done].
    rewrite (IH w1 Hloop).
    pose proof (set_input_value depth self k v w w1 name Hstep) as Hvalue.
    pose proof (frame_connections _ _ _ (set_input_inputs_frame depth self (plug_doc k v) w)
                  (self, name)) as Hconn.
    rewrite Hstep in Hconn. cbn [snd] in Hconn.
    rewrite reverse_cons, list_to_map_app, lookup_union.
    destruct ((list_to_map (reverse items) : gmap string py) !! name) as [x|] eqn:Hx.
    + rewrite union_Some_l.
      destruct (input_plug w1 (self, name)), (input_plug w (self, name)); done.
    + rewrite (left_id_L None (∪)). simpl.
      destruct (decide (k = name)) as [-> |Hk].
      * rewrite lookup_insert_eq.
        destruct (input_plug w1 (self, name)), (input_plug w (self, name));
          simpl in *; congruence.
      * rewrite lookup_insert_ne, lookup_empty by done.
        destruct (input_plug w1 (self, name)), (input_plug w (self, name));
          simpl in *; congruence.
Qed.

(** X15: when a document lists an input plug more than once, the last of
    its entries wins: after a completed [deserialize] an input plug of the
    node holds the value of the last entry that names it, and its old value
    when no entry does. *)
Theorem deserialize_last_entry depth self d (items : list (string * py)) w w' :
  d !! "inputs" = Some (PyList (uncurry plug_doc <$> items)) →
  deserialize depth self (PyDict d) w = (Ok tt, w') →
  ∀ name, p_value <$> input_plug w' (self, name) =
          (λ plug, default (p_value plug)
                     ((list_to_map (reverse items) : gmap string py) !! name))
          <$> input_plug w (self, name).
Proof.
  intros Hinputs. unfold deserialize; mrun. cbn [getitem].
  destruct (d !! "name") as [name0|]; [| done]. cbn [fst snd].
  destruct (d !! "identifier") as [identifier|]; [| done]. cbn [fst snd].
  rewrite Hinputs. cbn [fst snd py_iter].
  intros Hloop name.
  rewrite (set_inputs_last _ _ _ _ _ name Hloop).
  by rewrite !input_plug_update_node.
Qed.

(** ** The node class of the test suite *)

Lemma NodeForTesting_compute_ok x y :
  NodeForTesting_compute (<["in1" := x]> (<["in2" := y]> ∅)) =
  match py_mul x y with
  | Ok product => Ok (PyDict (<["out" := product]> (<["out2" := PyNone]> ∅)))
  | Raise e => Raise e
  end.
Proof.
  unfold NodeForTesting_compute.
  assert (delete "in1" (delete "in2" (<["in1" := x]> (<["in2" := y]> (∅ : gmap string py)))) = ∅)
    as ->.
  { apply map_eq. intros k. rewrite lookup_empty.
    destruct (decide (k = "in1")) as [-> |?]; [by rewrite lookup_delete_eq |].
    rewrite lookup_delete_ne by done.
    destruct (decide (k = "in2")) as [-> |?]; [by rewrite lookup_delete_eq |].
    rewrite lookup_delete_ne by done.
    by rewrite !lookup_insert_ne by done. }
  rewrite map_to_list_empty, lookup_insert_eq, lookup_insert_ne, lookup_insert_eq by done.
  done.
Qed.

(** X16: the node class of the test suite multiplies.  On a
    [NodeForTesting] whose inputs [in1] and [in2] hold the integers [a] and
    [b], a completed [evaluate] has returned [{'out': a * b, 'out2': None}]
    and left the product in [out] and [None] in [out2]; it does complete
    when the node has both outputs and the wiring has no cycle within the
    nesting limit. *)
Theorem NodeForTesting_evaluate depth self w n a b in1 in2 :
  nodes w !! self = Some n →
  n_class n = NodeForTesting_class →
  n_inputs n = <["in1" := in1]> (<["in2" := in2]> ∅) →
  p_value in1 = PyInt a → p_value in2 = PyInt b →
  (∀ outs w', evaluate depth self w = (Ok outs, w') →
     outs = PyDict (<["out" := PyInt (a * b)]> (<["out2" := PyNone]> ∅)) ∧
     p_value <$> output_plug w' (self, "out") = Some (PyInt (a * b)) ∧
     p_value <$> output_plug w' (self, "out2") = Some PyNone) ∧
  (∀ rank, is_Some (n_outputs n !! "out") → is_Some (n_outputs n !! "out2") →
           ranked rank w → rank self < depth →
     ∃ w', evaluate depth self w =
           (Ok (PyDict (<["out" := PyInt (a * b)]> (<["out2" := PyNone]> ∅))), w')).
Proof.
  intros Hn Hcls Hinputs Ha Hb.
  set (d := <["out" := PyInt (a * b)]> (<["out2" := PyNone]> (∅ : gmap string py))).
  assert (cls_compute (n_class n) (p_value <$> n_inputs n) = Ok (PyDict d)) as Hr.
  { rewrite Hcls, Hinputs, !fmap_insert, fmap_empty, Ha, Hb. simpl.
    by rewrite NodeForTesting_compute_ok. }
  split.
  - intros outs w' Hrun.
    apply evaluate_ok_inv in Hrun
      as (n0 & r0 & d0 & w1 & n1 & w2 & n2 & Hn0 & Hr0 & Hd0 & -> & Hloop1 &
          Hn1 & Hloop2 & Hn2 & ->).
    assert (n0 = n) as -> by congruence.
    assert (r0 = PyDict d) as -> by congruence.
    assert (d0 = d) as ->
      by (rewrite (computed_outputs (PyDict d) d) in Hd0 by auto; congruence).
    clear Hn0 Hr0 Hd0.
    assert (inputs_frame (λ _, False) w1 w2) as Hw2.
    { replace w2 with (for_each (clean_input depth self) (map_to_list (n_inputs n1)).*1 w1).2
        by (by rewrite Hloop2).
      apply (for_each_inv _). intros k v _. apply clean_input_frame. }
    assert (∀ k v, d !! k = Some v →
              p_value <$> output_plug w2 (self, k) = Some v) as Hout.
    { intros k v Hk.
      rewrite (inputs_frame_output_plug _ _ _ _ Hw2).
      rewrite (write_outputs_ok depth self _ w w1 (NoDup_fst_map_to_list d) Hloop1).
      simpl. rewrite decide_True by done. rewrite list_to_map_to_list, Hk.
      destruct (for_each_ok_elem plugs_frame _ _
                  (λ item v1 _, write_output_frame depth self item v1)
                  w w1 Hloop1 (k, v))
        as (v1 & v2 & Hv1 & Hstep & _); [by apply elem_of_map_to_list |].
      apply write_output_ok_is_Some in Hstep.
      apply (plugs_frame_output_is_Some _ _ _ Hv1) in Hstep as [plug Hplug].
      simpl in Hplug. by rewrite Hplug. }
    split_and!; [done | by apply Hout | by apply Hout].
  - intros rank Hout Hout2 Hrank Hdepth.
    apply (evaluate_total rank _ _ _ n (PyDict d)); auto.
    unfold d. rewrite !dom_insert_L, dom_empty_L.
    apply elem_of_dom in Hout, Hout2. intros k Hk.
    rewrite !elem_of_union, !elem_of_singleton in Hk.
    destruct Hk as [-> | [-> | Hk]]; [done | done |].
    by apply not_elem_of_empty in Hk.
Qed.

End Flowpipe.

(** * The properties at work

    on the test suite's nodes. *)

Lemma on_input_plug_set_dirty_marks_connected_witness :
  ∃ w', on_input_plug_set_dirty always 1 0 (0, "in1") branching = (Ok tt, w') ∧
        p_is_dirty <$> input_plug branching (2, "in1") = Some false ∧
        p_is_dirty <$> input_plug w' (2, "in1") = Some true.
Proof.
  destruct (on_input_plug_set_dirty_marks_connected
              always 1 0 (0, "in1") branching Start eq_refl) as [Hmarks Hreturns].
  destruct (Hreturns branching_rank) as [w' Hrun].
  - apply rankedb_sound. vm_compute. reflexivity.
  - vm_compute. lia.
  - exists w'. split; [exact Hrun |]. split; [vm_compute; reflexivity |].
    destruct (Hmarks w' Hrun) as [_ Hdirty].
    apply (Hdirty "out" (mkPlug PyNone false [(1, "in1"); (2, "in1")])).
    + vm_compute. reflexivity.
    + right. left.
    + vm_compute. eauto.
Defined.

Lemma evaluate_spec_witness :
  ∃ w', evaluate always 2 0 branching =
          (Ok (PyDict (<["out" := PyInt 6]> (<["out2" := PyNone]> ∅))), w') ∧
        p_value <$> output_plug w' (0, "out") = Some (PyInt 6) ∧
        p_is_dirty <$> input_plug w' (0, "in1") = Some false.
Proof.
  destruct (evaluate_spec always 2 0 branching Start
              (PyDict (<["out" := PyInt 6]> (<["out2" := PyNone]> ∅)))
              (<["out" := PyInt 6]> (<["out2" := PyNone]> ∅)))
    as [Hdone Hreturns].
  - reflexivity.
  - vm_compute. reflexivity.
  - left. reflexivity.
  - destruct (Hreturns branching_rank) as [w' Hrun].
    + apply (bool_decide_unpack _). vm_compute. exact I.
    + apply rankedb_sound. vm_compute. reflexivity.
    + vm_compute. lia.
    + exists w'. split; [exact Hrun |].
      destruct (Hdone _ w' Hrun) as (_ & Houts & Hclean & _).
      split_and!.
      * rewrite (Houts "out" (mkPlug PyNone false [(1, "in1"); (2, "in1")]) eq_refl).
        reflexivity.
      * apply Hclean. vm_compute. eauto.
Defined.

(** [HalfKnot] is dirty and writes [out2], which feeds its own clean [in1].
    With the hook invoked when a flag changes, the writes leave [in1] dirty,
    [evaluate] returns and the node is clean. *)
Lemma evaluate_leaves_clean_witness :
  is_dirty HalfKnot = true ∧
  p_is_dirty <$> input_plug half_knot (0, "in1") = Some false ∧
  p_is_dirty <$>
    input_plug
      (for_each (write_output on_change 3 0)
         (map_to_list (<["out" := PyInt 6]> (<["out2" := PyNone]> (∅ : gmap string py))))
         half_knot).2 (0, "in1") = Some true ∧
  ∃ w' n', evaluate on_change 3 0 half_knot =
             (Ok (PyDict (<["out" := PyInt 6]> (<["out2" := PyNone]> ∅))), w') ∧
           nodes w' !! 0 = Some n' ∧ is_dirty n' = false.
Proof.
  destruct (evaluate_leaves_clean on_change 3 0 half_knot) as (_ & Hwrites & Hreturns).
  split_and!.
  - vm_compute. reflexivity.
  - vm_compute. reflexivity.
  - apply (Hwrites HalfKnot (<["out" := PyInt 6]> (<["out2" := PyNone]> ∅)) _
             "out2" PyNone (mkPlug PyNone false [(0, "in1")]) "in1").
    + reflexivity.
    + vm_compute. reflexivity.
    + vm_compute. reflexivity.
    + vm_compute. reflexivity.
    + left.
    + vm_compute. eauto.
  - apply (Hreturns HalfKnot (PyDict (<["out" := PyInt 6]> (<["out2" := PyNone]> ∅)))).
    + reflexivity.
    + vm_compute. reflexivity.
    + left. reflexivity.
    + apply (bool_decide_unpack _). vm_compute. exact I.
    + left. split; [intros how; reflexivity |]. vm_compute. lia.
Defined.

Example knot_redirtied :
  p_is_dirty <$> input_plug knot (0, "in1") = Some false ∧
  p_is_dirty <$>
    input_plug (write_output on_change 2 0 ("out2", PyNone) knot).2 (0, "in1")
    = Some true.
Proof. vm_compute. done. Qed.

(** With the hook invoked on every marking, a node whose unwritten [out2]
    feeds its own [in1] is evaluated and clean. *)
Example feedback_clean :
  (evaluate always 1 0 feedback).1 = Ok (PyDict (<["out" := PyInt 7]> ∅)) ∧
  is_dirty <$> nodes (evaluate always 1 0 feedback).2 !! 0 = Some false.
Proof. vm_compute. done. Qed.

(** The scenario of the test graph: one pass over [Start], [Node1] and
    [Node2] leaves 6, 24 and 30 on their [out] plugs and no node dirty. *)
Example branching_pass :
  let w' := ((evaluate always 2 0 >> evaluate always 2 1 >> evaluate always 2 2) branching).2 in
  p_value <$> output_plug w' (0, "out") = Some (PyInt 6) ∧
  p_value <$> output_plug w' (1, "out") = Some (PyInt 24) ∧
  p_value <$> output_plug w' (2, "out") = Some (PyInt 30) ∧
  is_dirty <$> nodes w' !! 0 = Some false ∧
  is_dirty <$> nodes w' !! 1 = Some false ∧
  is_dirty <$> nodes w' !! 2 = Some false ∧
  log w' = [Computed (PyStr "Start"); Computed (PyStr "Node1"); Computed (PyStr "Node2")].
Proof. vm_compute. done. Qed.

(** [Knot] writes [out2], which feeds its own [in1]: when every marking
    invokes the hook, its [evaluate] does not return, whatever the nesting
    limit. *)
Example knot_raises : ∀ depth outs w', evaluate always depth 0 knot ≠ (Ok outs, w').
Proof.
  intros depth.
  apply (evaluate_feedback_raises always depth 0 knot Knot
           (<["out" := PyInt 6]> (<["out2" := PyNone]> ∅))
           "out2" PyNone (mkPlug PyNone false [(0, "in1")]) "in1").
  - reflexivity.
  - reflexivity.
  - vm_compute. reflexivity.
  - reflexivity.
  - reflexivity.
  - left.
  - vm_compute. eauto.
Qed.

Lemma evaluate_compute_raises_witness :
  evaluate always 1 1 branching = (Raise TypeError, branching).
Proof.
  apply (evaluate_compute_raises always 1 1 branching Node1 TypeError).
  - reflexivity.
  - vm_compute. reflexivity.
Defined.

(** [Node1] of the test graph has no value on [in1] yet; its [compute]
    raises a [TypeError], and that is what [evaluate] raises. *)
Lemma evaluate_compute_error_counterexample :
  cls_compute (n_class Node1) (p_value <$> n_inputs Node1) = Raise TypeError ∧
  ¬ ∃ e w', evaluate always 1 1 branching = (Raise e, w') ∧ exn_cls e = "ComputeError".
Proof.
  split; [vm_compute; reflexivity |].
  intros (e & w' & Hrun & Hcls).
  assert (evaluate always 1 1 branching = (Raise TypeError, branching)) as Hrun'
    by (vm_compute; reflexivity).
  rewrite Hrun' in Hrun. injection Hrun as <- _. discriminate Hcls.
Qed.



(** Deserializing [Node1]'s own document into [Node1] assigns [in1] and
    leaves it dirty; the output [out] is as it was. *)
Lemma deserialize_frame_witness :
  (deserialize always 1 1 (serialize Node1) branching).1 = Ok tt ∧
  p_is_dirty <$> input_plug branching (1, "in1") = Some false ∧
  p_is_dirty <$>
    input_plug (deserialize always 1 1 (serialize Node1) branching).2 (1, "in1")
    = Some true ∧
  output_plug (deserialize always 1 1 (serialize Node1) branching).2 (1, "out") =
  output_plug branching (1, "out").
Proof.
  destruct (deserialize_frame always 1 1 (serialize Node1) branching)
    as (Hframe & _ & _ & Hdirty & _).
  split_and!.
  - vm_compute. reflexivity.
  - vm_compute. reflexivity.
  - apply (Hdirty (deserialize always 1 1 (serialize Node1) branching).2).
    + vm_compute. reflexivity.
    + split; [reflexivity |].
      eexists _, _, (plug_doc "in1" PyNone). split_and!.
      * apply getitem_serialize_inputs.
      * reflexivity.
      * apply list_elem_of_fmap. exists ("in1", PyNone). split; [reflexivity |].
        apply elem_of_map_to_list. vm_compute. reflexivity.
      * reflexivity.
  - apply (nf_outputs _ _ _ _ Hframe).
Defined.



Lemma deserialize_serialize_witness :
  ∃ w' target',
    deserialize always 1 0 (serialize Start) fresh = (Ok tt, w') ∧
    nodes w' !! 0 = Some target' ∧
    n_name target' = PyStr "Start" ∧
    n_identifier target' = PyStr "Start-0001" ∧
    p_value <$> n_inputs target' !! "in1" = Some (PyInt 2).
Proof.
  destruct (deserialize_serialize always 1 0 fresh Start Fresh)
    as (w' & target' & Hrun & Hn & Hname & Hid & Hvalues).
  - reflexivity.
  - vm_compute. reflexivity.
  - intros name plug Hplug. unfold Fresh, NodeForTesting in Hplug. simpl in Hplug.
    apply lookup_insert_Some in Hplug as [[_ <-] | [_ Hplug]]; [done |].
    apply lookup_insert_Some in Hplug as [[_ <-] | [_ Hplug]]; [done |].
    by rewrite lookup_empty in Hplug.
  - lia.
  - exists w', target'. split_and!; [done | done | done | done |].
    by rewrite Hvalues.
Defined.

Lemma INode_init_identifier_witness :
  n_name (INode_init NodeForTesting_class None None "0001") =
  n_name (INode_init Forward_class (Some "NodeForTesting") None "0001") ∧
  "0001" = "0001".
Proof.
  apply (INode_init_identifier NodeForTesting_class Forward_class
           None (Some "NodeForTesting") "0001" "0001"); reflexivity.
Defined.

(** The picture of [Node1], whose [in1] is connected: eight rows of twelve
    characters. *)
Lemma unicode_box_witness :
  ∃ head ins outs foot,
    INode_unicode Python2 Node1 =
      Ok (String.concat newline (head ++ ins ++ outs ++ [foot])) ∧
    length head = 3 ∧
    length ins = 2 ∧
    Forall (λ row, String.length row = 12) (head ++ ins ++ [foot]) ∧
    Forall2 (λ row plug, String.length row = 12 + (if connected plug then 3 else 0))
      outs (map_to_list (n_outputs Node1)).*2.
Proof. exact (unicode_box Node1 "Node1" eq_refl). Defined.

Lemma str_ascii_witness : INode_str Python2 Node1 = INode_unicode Python2 Node1.
Proof. exact (str_ascii Node1 "Node1" eq_refl). Defined.

(** Under Python 3 the sum of the two [keys()] is a [TypeError], whatever
    the node. *)
Example unicode_python3 n :
  INode_unicode Python3 n = Raise TypeError ∧ INode_str Python3 n = Raise TypeError.
Proof. done. Qed.

(** A name with a byte above 127 has a picture, and no [__str__]. *)
Example str_not_ascii :
  let n := node_with_name (PyStr (String (Ascii.ascii_of_nat 233) "")) Fresh in
  (∃ pretty, INode_unicode Python2 n = Ok pretty) ∧
  INode_str Python2 n = Raise UnicodeDecodeError.
Proof. split; [eexists |]; vm_compute; reflexivity. Qed.

Lemma on_input_plug_set_dirty_sink_witness :
  on_input_plug_set_dirty always 0 1 (1, "in1") branching = (Ok tt, branching).
Proof.
  apply (on_input_plug_set_dirty_sink always 0 1 (1, "in1") branching Node1).
  - reflexivity.
  - intros name plug Hplug. unfold Node1, NodeForTesting in Hplug. simpl in Hplug.
    apply lookup_insert_Some in Hplug as [[_ <-] | [_ Hplug]]; [done |].
    apply lookup_insert_Some in Hplug as [[_ <-] | [_ Hplug]]; [done |].
    by rewrite lookup_empty in Hplug.
Defined.

(** The hook of [Start] leaves [Node2] dirty. *)
Lemma on_input_plug_set_dirty_downstream_witness :
  ∃ n', nodes (on_input_plug_set_dirty always 1 0 (0, "in1") branching).2 !! 2 = Some n' ∧
        is_dirty n' = true.
Proof.
  apply (on_input_plug_set_dirty_downstream always 1 0 (0, "in1") branching _ Start).
  - reflexivity.
  - intros name plug q Hplug Hq. unfold Start, NodeForTesting in Hplug. simpl in Hplug.
    apply lookup_insert_Some in Hplug as [[_ <-] | [_ Hplug]].
    + simpl in Hq. apply elem_of_cons in Hq as [-> | Hq]; [vm_compute; eauto |].
      apply elem_of_cons in Hq as [-> | Hq]; [vm_compute; eauto |].
      by apply elem_of_nil in Hq.
    + apply lookup_insert_Some in Hplug as [[_ <-] | [_ Hplug]].
      * by apply elem_of_nil in Hq.
      * by rewrite lookup_empty in Hplug.
  - vm_compute. reflexivity.
  - apply (bool_decide_unpack _). vm_compute. exact I.
Defined.

(** A [NodeForTesting] as constructed has no values to multiply: its
    [evaluate] raises, logs nothing and leaves it dirty. *)
Lemma evaluate_raises_keeps_dirty_witness :
  log (evaluate always 1 0 fresh).2 = [] ∧
  ∃ n', nodes (evaluate always 1 0 fresh).2 !! 0 = Some n' ∧ is_dirty n' = true.
Proof.
  destruct (evaluate_raises_keeps_dirty always 1 0 fresh TypeError
              (evaluate always 1 0 fresh).2) as (Hlog & _ & Hdirty).
  - vm_compute. reflexivity.
  - split; [exact Hlog |]. apply (Hdirty 0 Fresh); vm_compute; reflexivity.
Defined.

Lemma evaluate_not_a_mapping_witness :
  evaluate always 1 0 (constant (PyInt 1)) = (Raise AttributeError, constant (PyInt 1)).
Proof.
  apply (evaluate_not_a_mapping always 1 0 (constant (PyInt 1)) (Constant (PyInt 1)) (PyInt 1));
    done.
Defined.

(** A subclass whose [compute] defers to the abstract method computes no
    outputs. *)
Example evaluate_base_compute :
  let w := mkWorld (<[0 := mkNode (mkClass "conftest" "Plain" INode_compute)
                             (PyStr "Plain") (PyStr "Plain-0001")
                             (<["in1" := mkPlug (PyInt 1) true []]> ∅)
                             (<["out" := mkPlug (PyInt 5) false []]> ∅)]> ∅) [] in
  (evaluate always 1 0 w).1 = Ok (PyDict ∅) ∧
  p_value <$> output_plug (evaluate always 1 0 w).2 (0, "out") = Some (PyInt 5).
Proof. vm_compute. split; reflexivity. Qed.

Lemma evaluate_falsy_witness :
  ∃ w', evaluate always 1 0 (constant (PyInt 0)) = (Ok (PyDict ∅), w') ∧
        p_is_dirty <$> input_plug w' (0, "in1") = Some false ∧
        log w' = [Computed (PyStr "Constant")].
Proof.
  destruct (evaluate_falsy always 1 0 (constant (PyInt 0)) (Constant (PyInt 0)) (PyInt 0))
    as (w' & Hrun & _ & _ & Hclean & Hlog); [done | done | done | lia |].
  exists w'. split_and!; [done | | done].
  apply Hclean. vm_compute. eauto.
Defined.

(** [Start] passes its product on to [Node1]. *)
Lemma evaluate_pushes_witness :
  p_is_dirty <$> input_plug branching (1, "in1") = Some false ∧
  p_is_dirty <$> input_plug (evaluate always 2 0 branching).2 (1, "in1") = Some true ∧
  (∃ m, nodes (evaluate always 2 0 branching).2 !! 1 = Some m ∧ is_dirty m = true) ∧
  p_value <$> input_plug (evaluate always 2 0 branching).2 (1, "in1") = Some (PyInt 6).
Proof.
  destruct (evaluate_pushes always 2 0 branching
              (PyDict (<["out" := PyInt 6]> (<["out2" := PyNone]> ∅)))
              (evaluate always 2 0 branching).2 Start
              (<["out" := PyInt 6]> (<["out2" := PyNone]> ∅))
              "out" (PyInt 6) (mkPlug PyNone false [(1, "in1"); (2, "in1")]) (1, "in1"))
    as (Hflag & Hdirty & Hvalue).
  - reflexivity.
  - vm_compute. reflexivity.
  - vm_compute. reflexivity.
  - vm_compute. reflexivity.
  - vm_compute. reflexivity.
  - left.
  - vm_compute. eauto.
  - cbn [fst]. lia.
  - split; [vm_compute; reflexivity |]. split; [exact Hflag |].
    split; [exact Hdirty |]. apply Hvalue.
    intros name' plug' _ Hplug' Hq. unfold Start, NodeForTesting in Hplug'. simpl in Hplug'.
    apply lookup_insert_Some in Hplug' as [[<- _] | [_ Hplug']]; [reflexivity |].
    apply lookup_insert_Some in Hplug' as [[_ <-] | [_ Hplug']].
    + apply elem_of_nil in Hq. destruct Hq.
    + rewrite lookup_empty in Hplug'. discriminate Hplug'.
Defined.

(** A fresh [NodeForTesting] that reads the document of a [Forward] node
    remains a [NodeForTesting]. *)
Lemma serialize_deserialize_witness :
  ∃ n', nodes (deserialize always 1 0
                 (PyDict (<["module" := PyStr "conftest"]>
                         (<["cls" := PyStr "Forward"]>
                         (<["name" := PyStr "Loop"]>
                         (<["identifier" := PyStr "Loop-0001"]>
                         (<["inputs" := PyList [plug_doc "in1" (PyInt 7)]]> ∅))))))
                 fresh).2 !! 0 = Some n' ∧
        getitem (serialize n') "name" = Ok (PyStr "Loop") ∧
        getitem (serialize n') "cls" = Ok (PyStr "NodeForTesting").
Proof.
  destruct (serialize_deserialize always 1 0
              (PyDict (<["module" := PyStr "conftest"]>
                      (<["cls" := PyStr "Forward"]>
                      (<["name" := PyStr "Loop"]>
                      (<["identifier" := PyStr "Loop-0001"]>
                      (<["inputs" := PyList [plug_doc "in1" (PyInt 7)]]> ∅))))))
              fresh
              (deserialize always 1 0
                 (PyDict (<["module" := PyStr "conftest"]>
                         (<["cls" := PyStr "Forward"]>
                         (<["name" := PyStr "Loop"]>
                         (<["identifier" := PyStr "Loop-0001"]>
                         (<["inputs" := PyList [plug_doc "in1" (PyInt 7)]]> ∅))))))
                 fresh).2 Fresh)
    as (n' & Hn' & Hname & _ & _ & Hcls & _).
  - reflexivity.
  - vm_compute. reflexivity.
  - exists n'. split_and!; [exact Hn' | by rewrite Hname | by rewrite Hcls].
Defined.

(** A document of another class, with a field more in its entry, is
    deserialized as the plain one is. *)
Lemma deserialize_reads_witness :
  deserialize always 1 0
    (PyDict (<["name" := PyStr "Loop"]>
            (<["identifier" := PyStr "Loop-0001"]>
            (<["inputs" := PyList [plug_doc "in1" (PyInt 7)]]> ∅)))) fresh =
  deserialize always 1 0
    (PyDict (<["cls" := PyStr "Forward"]>
            (<["name" := PyStr "Loop"]>
            (<["identifier" := PyStr "Loop-0001"]>
            (<["inputs" :=
                 PyList [PyDict (<["name" := PyStr "in1"]>
                                (<["value" := PyInt 7]>
                                (<["connections" := PyDict ∅]> ∅)))]]> ∅))))) fresh.
Proof.
  apply (deserialize_reads always 1 0 _ _
           [plug_doc "in1" (PyInt 7)]
           [PyDict (<["name" := PyStr "in1"]>
                   (<["value" := PyInt 7]>
                   (<["connections" := PyDict ∅]> ∅)))]).
  - vm_compute. reflexivity.
  - vm_compute. reflexivity.
  - vm_compute. reflexivity.
  - vm_compute. reflexivity.
  - constructor; [| constructor]. split; vm_compute; reflexivity.
Defined.

(** A document that lists [in1] twice leaves the second value. *)
Lemma deserialize_last_entry_witness :
  p_value <$>
    input_plug
      (deserialize always 1 0
         (PyDict (<["name" := PyStr "Twice"]>
                 (<["identifier" := PyStr "Twice-0001"]>
                 (<["inputs" := PyList [plug_doc "in1" (PyInt 1);
                                        plug_doc "in1" (PyInt 2)]]> ∅))))
         fresh).2 (0, "in1") = Some (PyInt 2).
Proof.
  rewrite (deserialize_last_entry always 1 0
             (<["name" := PyStr "Twice"]>
             (<["identifier" := PyStr "Twice-0001"]>
             (<["inputs" := PyList [plug_doc "in1" (PyInt 1);
                                    plug_doc "in1" (PyInt 2)]]> ∅)))
             [("in1", PyInt 1); ("in1", PyInt 2)] fresh
             (deserialize always 1 0
                (PyDict (<["name" := PyStr "Twice"]>
                        (<["identifier" := PyStr "Twice-0001"]>
                        (<["inputs" := PyList [plug_doc "in1" (PyInt 1);
                                               plug_doc "in1" (PyInt 2)]]> ∅))))
                fresh).2).
  - vm_compute. reflexivity.
  - vm_compute. reflexivity.
  - vm_compute. reflexivity.
Defined.

Lemma NodeForTesting_evaluate_witness :
  ∃ w', evaluate always 2 0 branching =
          (Ok (PyDict (<["out" := PyInt 6]> (<["out2" := PyNone]> ∅))), w') ∧
        p_value <$> output_plug w' (0, "out") = Some (PyInt 6) ∧
        p_value <$> output_plug w' (0, "out2") = Some PyNone.
Proof.
  destruct (NodeForTesting_evaluate always 2 0 branching Start 2 3
              (mkPlug (PyInt 2) true []) (mkPlug (PyInt 3) true []))
    as [Hdone Hreturns]; [reflexivity .. |].
  destruct (Hreturns branching_rank) as [w' Hrun].
  - vm_compute. eauto.
  - vm_compute. eauto.
  - apply rankedb_sound. vm_compute. reflexivity.
  - vm_compute. lia.
  - exists w'. split; [exact Hrun |].
    destruct (Hdone _ w' Hrun) as (_ & Hout & Hout2).
    split; [exact Hout | exact Hout2].
Defined.
